(** * The "each" scheduler of pytest-xdist: [xdist/scheduler/each.py]

    A shallow embedding of the class [EachScheduling] and the properties of
    its bookkeeping.  Every method becomes a function from the scheduler
    object to an [outcome]: the value returned or the exception raised, the
    object as the call leaves it (also when it raises) and the calls made on
    the worker handles and on the logger, in order. *)

From stdpp Require Import base decidable option numbers list sorting strings.

Open Scope Z_scope.

(** ** Python values used by the scheduler *)

(** [list.__getitem__] with an [int]: negative indices count from the end,
    anything outside [-len, len) raises [IndexError] (here [None]). *)
Definition getitem {A : Type} (l : list A) (i : Z) : option A :=
  if decide (0 ≤ i) then l !! Z.to_nat i
  else if decide (- Z.of_nat (length l) ≤ i)
       then l !! Z.to_nat (Z.of_nat (length l) + i)
       else None.

(** [list.remove(x)]: drops the first occurrence of [x]; [None] stands for
    the [ValueError] raised when there is none. *)
Fixpoint list_remove (x : Z) (l : list Z) : option (list Z) :=
  match l with
  | [] => None
  | y :: l' =>
      if decide (y = x) then Some l'
      else match list_remove x l' with
           | Some r => Some (y :: r)
           | None => None
           end
  end.

(** [range(n)] as a list of Python ints. *)
Definition range (n : nat) : list Z := Z.of_nat <$> seq 0 n.

(** ** Insertion-ordered dictionaries

    A Python [dict] iterates in insertion order, assigning to a present key
    keeps its position, assigning to a new key appends.  The scheduler
    depends on that order twice (the search through [_removed2pending], the
    loop of [schedule]), hence association lists. *)
Module Dict.
Section dict.
Context {K V : Type} `{EqDecision K}.

Definition keys (d : list (K * V)) : list K := d.*1.
Definition values (d : list (K * V)) : list V := d.*2.

(** [d[k]]; [None] stands for [KeyError]. *)
Fixpoint get (k : K) (d : list (K * V)) : option V :=
  match d with
  | [] => None
  | (k', v) :: d' => if decide (k' = k) then Some v else get k d'
  end.

(** [k in d] *)
Definition mem (k : K) (d : list (K * V)) : bool :=
  bool_decide (k ∈ keys d).

(** [d[k] = v] *)
Fixpoint set (k : K) (v : V) (d : list (K * V)) : list (K * V) :=
  match d with
  | [] => [(k, v)]
  | (k', v') :: d' =>
      if decide (k' = k) then (k', v) :: d' else (k', v') :: set k v d'
  end.

(** [d.pop(k)]: the value and the dictionary without the key; [None]
    stands for [KeyError]. *)
Fixpoint pop (k : K) (d : list (K * V)) : option (V * list (K * V)) :=
  match d with
  | [] => None
  | (k', v) :: d' =>
      if decide (k' = k) then Some (v, d')
      else match pop k d' with
           | Some (w, r) => Some (w, (k', v) :: r)
           | None => None
           end
  end.

(** A dictionary holds every key once. *)
Definition wf (d : list (K * V)) : Prop := NoDup (keys d).
End dict.
End Dict.

(** ** Workers

    A [WorkerController] is hashed and compared by object identity;
    [uid] stands for that identity.  The scheduler reads [gateway.id] and
    [gateway.spec] and calls [shutdown], [send_runtest_all] and
    [send_runtest_some]. *)
Record Gateway : Type := mkGateway {
  gateway_id : string;
  gateway_spec : string
}.

Record WorkerController : Type := mkWorker {
  uid : nat;
  gateway : Gateway
}.

#[global] Instance Gateway_eq_dec : EqDecision Gateway.
Proof. solve_decision. Defined.
#[global] Instance WorkerController_eq_dec : EqDecision WorkerController.
Proof. solve_decision. Defined.

(** The message built by [xdist.report.report_collection_diff] from its four
    arguments [(from_collection, to_collection, from_id, to_id)]; the
    function lives outside this module, the message is kept as the call. *)
Inductive message : Type :=
| report_collection_diff
    (from_collection to_collection : list string) (from_id to_id : string).

(** Calls the scheduler makes on its collaborators. *)
Inductive event : Type :=
| shutdown (node : WorkerController)
| send_runtest_all (node : WorkerController)
| send_runtest_some (node : WorkerController) (indices : list Z)
| log (msg : message).

#[global] Instance message_eq_dec : EqDecision message.
Proof. solve_decision. Defined.
#[global] Instance event_eq_dec : EqDecision event.
Proof. solve_decision. Defined.

(** ** The scheduler object *)
Record EachScheduling : Type := mkEachScheduling {
  numnodes : nat;
  node2collection : list (WorkerController * list string);
  node2pending : list (WorkerController * list Z);
  _started : list WorkerController;
  _removed2pending : list (WorkerController * list Z);
  collection_is_completed : bool;
  _allowed_workers : list string
}.

Definition with_node2collection d (self : EachScheduling) : EachScheduling :=
  mkEachScheduling self.(numnodes) d self.(node2pending) self.(_started)
    self.(_removed2pending) self.(collection_is_completed)
    self.(_allowed_workers).

Definition with_node2pending d (self : EachScheduling) : EachScheduling :=
  mkEachScheduling self.(numnodes) self.(node2collection) d self.(_started)
    self.(_removed2pending) self.(collection_is_completed)
    self.(_allowed_workers).

Definition with_started l (self : EachScheduling) : EachScheduling :=
  mkEachScheduling self.(numnodes) self.(node2collection) self.(node2pending)
    l self.(_removed2pending) self.(collection_is_completed)
    self.(_allowed_workers).

Definition with_removed2pending d (self : EachScheduling) : EachScheduling :=
  mkEachScheduling self.(numnodes) self.(node2collection) self.(node2pending)
    self.(_started) d self.(collection_is_completed)
    self.(_allowed_workers).

Definition with_collection_is_completed b (self : EachScheduling)
  : EachScheduling :=
  mkEachScheduling self.(numnodes) self.(node2collection) self.(node2pending)
    self.(_started) self.(_removed2pending) b self.(_allowed_workers).

(** [__init__]: [numnodes] is the number of configured specs and
    [_allowed_workers] the set parsed from the environment; both are read
    once, here. *)
Definition init (n : nat) (allowed : list string) : EachScheduling :=
  mkEachScheduling n [] [] [] [] false allowed.

(** ** Outcomes of a method call *)
Inductive exn : Type :=
| AssertionError | KeyError | ValueError | IndexError | NotImplementedError.

Inductive result (A : Type) : Type :=
| Return (a : A)
| Raise (e : exn).
Arguments Return {A} a.
Arguments Raise {A} e.

Record outcome (A : Type) : Type := mkOutcome {
  value : result A;
  after : EachScheduling;
  emitted : list event
}.
Arguments mkOutcome {A}.
Arguments value {A}.
Arguments after {A}.
Arguments emitted {A}.

Definition ret {A : Type} (a : A) (self : EachScheduling) : outcome A :=
  mkOutcome (Return a) self [].
Definition raise {A : Type} (e : exn) (self : EachScheduling) : outcome A :=
  mkOutcome (Raise e) self [].

(** ** Properties *)

Definition _is_allowed_worker (self : EachScheduling)
    (node : WorkerController) : bool :=
  match self.(_allowed_workers) with
  | [] => true
  | _ => bool_decide (node.(gateway).(gateway_id) ∈ self.(_allowed_workers))
  end.

Definition nodes (self : EachScheduling) : list WorkerController :=
  Dict.keys self.(node2pending).

Definition tests_finished (self : EachScheduling) : bool :=
  if negb self.(collection_is_completed) then false
  else match self.(_removed2pending) with
       | _ :: _ => false
       | [] =>
           forallb (λ pending : list Z, negb (2 <=? length pending)%nat)
             (Dict.values self.(node2pending))
       end.

Definition has_pending (self : EachScheduling) : bool :=
  existsb (λ pending : list Z, match pending with [] => false | _ => true end)
    (Dict.values self.(node2pending)).

(** ** Methods *)

Definition add_node (node : WorkerController) (self : EachScheduling)
  : outcome unit :=
  if Dict.mem node self.(node2pending) then raise AssertionError self
  else ret tt (with_node2pending (Dict.set node [] self.(node2pending)) self).

(** The loop of [add_node_collection] over the dead workers, run once
    collection is complete.  Its body leaves the loop (by [return] or
    [break]) the first time the specs are equal, and changes nothing
    before. *)
Fixpoint replace_dead (node : WorkerController) (collection : list string)
    (deadnodes : list WorkerController) (self : EachScheduling)
  : outcome unit :=
  match deadnodes with
  | [] => ret tt self
  | deadnode :: rest =>
      if decide (deadnode.(gateway).(gateway_spec)
                 = node.(gateway).(gateway_spec)) then
        match Dict.get deadnode self.(node2collection) with
        | None => raise KeyError self
        | Some dead_collection =>
            if decide (collection ≠ dead_collection) then
              mkOutcome (Return tt) self
                [log (report_collection_diff dead_collection collection
                        deadnode.(gateway).(gateway_id)
                        node.(gateway).(gateway_id))]
            else
              match Dict.pop deadnode self.(_removed2pending) with
              | None => raise KeyError self
              | Some (pending, removed) =>
                  ret tt
                    (with_node2pending
                       (Dict.set node pending self.(node2pending))
                       (with_removed2pending removed self))
              end
        end
      else replace_dead node collection rest self
  end.

Definition add_node_collection (node : WorkerController)
    (collection : list string) (self : EachScheduling) : outcome unit :=
  if negb (Dict.mem node self.(node2pending)) then raise AssertionError self
  else if negb self.(collection_is_completed) then
    let self1 :=
      with_node2collection
        (Dict.set node collection self.(node2collection)) self in
    let self2 :=
      with_node2pending (Dict.set node [] self1.(node2pending)) self1 in
    if (self2.(numnodes) <=? length self2.(node2collection))%nat
    then ret tt (with_collection_is_completed true self2)
    else ret tt self2
  else
    match self.(_removed2pending) with
    | [] => ret tt self
    | _ :: _ =>
        replace_dead node collection (Dict.keys self.(_removed2pending)) self
    end.

Definition mark_test_complete (node : WorkerController) (item_index : Z)
    (self : EachScheduling) : outcome unit :=
  match Dict.get node self.(node2pending) with
  | None => raise KeyError self
  | Some pending =>
      match list_remove item_index pending with
      | None => raise ValueError self
      | Some pending' =>
          ret tt
            (with_node2pending
               (Dict.set node pending' self.(node2pending)) self)
      end
  end.

Definition mark_test_pending (item : string) (self : EachScheduling)
  : outcome unit :=
  raise NotImplementedError self.

Definition remove_pending_tests_from_node (node : WorkerController)
    (indices : list Z) (self : EachScheduling) : outcome unit :=
  raise NotImplementedError self.

Definition remove_node (node : WorkerController) (self : EachScheduling)
  : outcome (option string) :=
  match Dict.pop node self.(node2pending) with
  | None => raise KeyError self
  | Some (pending, rest) =>
      let self1 := with_node2pending rest self in
      match pending with
      | [] => ret None self1
      | index :: pending' =>
          match Dict.get node self1.(node2collection) with
          | None => raise KeyError self1
          | Some collection =>
              match getitem collection index with
              | None => raise IndexError self1
              | Some crashitem =>
                  match pending' with
                  | [] => ret (Some crashitem) self1
                  | _ :: _ =>
                      ret (Some crashitem)
                        (with_removed2pending
                           (Dict.set node pending' self1.(_removed2pending))
                           self1)
                  end
              end
          end
      end
  end.

(** What the loop of [schedule] has done when it stops: the entries of
    [node2pending] as it leaves them, [_started], the calls made, and the
    exception if it stopped on one. *)
Record scheduled : Type := mkScheduled {
  entries : list (WorkerController * list Z);
  started_after : list WorkerController;
  calls : list event;
  raised : option exn
}.

(** One more entry handled and [evs] sent before the rest of the loop. *)
Definition handled (entry : WorkerController * list Z) (evs : list event)
    (r : scheduled) : scheduled :=
  mkScheduled (entry :: r.(entries)) r.(started_after) (evs ++ r.(calls))
    r.(raised).

(** The body of the loop of [schedule] for the entry [(node, pending)],
    with [started] for [self._started] so far: [None] when the body raises
    [KeyError] at [self.node2collection[node]], else the list the entry
    holds afterwards, [self._started] afterwards and the calls made.
    [pending] is the list object held by the entry, so
    [pending[:] = range(..)] rewrites the entry in place. *)
Definition schedule_node (self : EachScheduling)
    (started : list WorkerController) (node : WorkerController)
    (pending : list Z)
  : option (list Z * list WorkerController * list event) :=
  if decide (node ∈ started) then Some (pending, started, [])
  else if negb (_is_allowed_worker self node) then
    Some (pending, started ++ [node], [shutdown node])
  else
    match pending with
    | [] =>
        match Dict.get node self.(node2collection) with
        | None => None
        | Some collection =>
            Some (range (length collection), started ++ [node],
                  [send_runtest_all node; shutdown node])
        end
    | _ :: _ =>
        Some (pending, started ++ [node], [send_runtest_some node pending])
    end.

(** The ways through the body of the loop, by the branch taken. *)
Inductive schedule_node_case (self : EachScheduling)
    (started : list WorkerController) (node : WorkerController)
    (pending : list Z)
  : option (list Z * list WorkerController * list event) → Prop :=
| node_already_started :
    node ∈ started →
    schedule_node_case self started node pending
      (Some (pending, started, []))
| node_not_allowed :
    node ∉ started → _is_allowed_worker self node = false →
    schedule_node_case self started node pending
      (Some (pending, started ++ [node], [shutdown node]))
| node_fresh collection :
    node ∉ started → _is_allowed_worker self node = true → pending = [] →
    Dict.get node (node2collection self) = Some collection →
    schedule_node_case self started node pending
      (Some (range (length collection), started ++ [node],
             [send_runtest_all node; shutdown node]))
| node_fresh_no_collection :
    node ∉ started → _is_allowed_worker self node = true → pending = [] →
    Dict.get node (node2collection self) = None →
    schedule_node_case self started node pending None
| node_replacement :
    node ∉ started → _is_allowed_worker self node = true → pending ≠ [] →
    schedule_node_case self started node pending
      (Some (pending, started ++ [node], [send_runtest_some node pending])).

(** The loop of [schedule] over [self.node2pending.items()]. *)
Fixpoint schedule_loop (self : EachScheduling)
    (items : list (WorkerController * list Z))
    (started : list WorkerController) : scheduled :=
  match items with
  | [] => mkScheduled [] started [] None
  | (node, pending) :: rest =>
      match schedule_node self started node pending with
      | None => mkScheduled ((node, pending) :: rest) started [] (Some KeyError)
      | Some (pending', started', evs) =>
          handled (node, pending') evs (schedule_loop self rest started')
      end
  end.

Definition schedule (self : EachScheduling) : outcome unit :=
  if negb self.(collection_is_completed) then raise AssertionError self
  else
    let r := schedule_loop self self.(node2pending) self.(_started) in
    mkOutcome
      (match r.(raised) with Some e => Raise e | None => Return tt end)
      (with_started r.(started_after) (with_node2pending r.(entries) self))
      r.(calls).

(** ** Runs of the scheduler *)

(** The calls of the run loop that drives the scheduler. *)
Inductive call : Type :=
| Add_node (node : WorkerController)
| Add_node_collection (node : WorkerController) (collection : list string)
| Mark_test_complete (node : WorkerController) (item_index : Z)
| Remove_node (node : WorkerController)
| Schedule.

#[global] Instance call_eq_dec : EqDecision call.
Proof. solve_decision. Defined.

(** The object after a call, whether it returned or raised, and what the
    call sent. *)
Definition perform (c : call) (self : EachScheduling)
  : EachScheduling * list event :=
  match c with
  | Add_node node =>
      let o := add_node node self in (o.(after), o.(emitted))
  | Add_node_collection node collection =>
      let o := add_node_collection node collection self in
      (o.(after), o.(emitted))
  | Mark_test_complete node item_index =>
      let o := mark_test_complete node item_index self in
      (o.(after), o.(emitted))
  | Remove_node node =>
      let o := remove_node node self in (o.(after), o.(emitted))
  | Schedule =>
      let o := schedule self in (o.(after), o.(emitted))
  end.

Fixpoint run (cs : list call) (self : EachScheduling)
  : EachScheduling * list event :=
  match cs with
  | [] => (self, [])
  | c :: cs' =>
      let '(self1, evs1) := perform c self in
      let '(self2, evs2) := run cs' self1 in
      (self2, evs1 ++ evs2)
  end.

(** The worker a call is made on; the logger is no worker. *)
Definition receiver (e : event) : option WorkerController :=
  match e with
  | shutdown node => Some node
  | send_runtest_all node => Some node
  | send_runtest_some node _ => Some node
  | log _ => None
  end.

(** The calls made on [node], in order. *)
Definition sent_to (node : WorkerController) (evs : list event)
  : list event :=
  filter (λ e, receiver e = Some node) evs.

(** [send_runtest_all] and [send_runtest_some] order tests to be run. *)
Definition is_run (e : event) : Prop :=
  match e with
  | send_runtest_all _ | send_runtest_some _ _ => True
  | _ => False
  end.

#[global] Instance is_run_dec e : Decision (is_run e).
Proof. destruct e; simpl; apply _. Defined.

(** How many times [node] was ordered to run tests. *)
Definition runs_sent_to (node : WorkerController) (evs : list event) : nat :=
  length (filter is_run (sent_to node evs)).

(** The states a scheduler can be in: a fresh one, and whatever a call
    leaves. *)
Inductive reachable : EachScheduling → Prop :=
| reachable_init n allowed : reachable (init n allowed)
| reachable_perform c self :
    reachable self → reachable (perform c self).1.

(** ** Invariants of the bookkeeping *)

(** Each of the three dictionaries holds every key once. *)
Definition dicts_wf (self : EachScheduling) : Prop :=
  Dict.wf (node2collection self) ∧ Dict.wf (node2pending self) ∧
  Dict.wf (_removed2pending self).

(** Every list of indices the scheduler holds is strictly increasing. *)
Definition pending_increasing (self : EachScheduling) : Prop :=
  (∀ node pending,
     (node, pending) ∈ node2pending self → StronglySorted Z.lt pending) ∧
  (∀ node pending,
     (node, pending) ∈ _removed2pending self → StronglySorted Z.lt pending).

(** Every pending index of a registered worker is an index into the
    collection recorded for that worker. *)
Definition indices_in_range (self : EachScheduling) : Prop :=
  ∀ node pending index,
    Dict.get node (node2pending self) = Some pending →
    index ∈ pending →
    ∃ collection,
      Dict.get node (node2collection self) = Some collection ∧
      index < Z.of_nat (length collection).

(** A call other than a report made once collection is complete. *)
Definition not_late_report (c : call) (self : EachScheduling) : Prop :=
  match c with
  | Add_node_collection _ _ => collection_is_completed self = false
  | _ => True
  end.

(** Some dead worker with work left has the spec of [node] and recorded a
    collection other than [collection]. *)
Definition some_dead_mismatch (self : EachScheduling)
    (node : WorkerController) (collection : list string) : Prop :=
  ∃ deadnode dead_collection,
    deadnode ∈ Dict.keys (_removed2pending self) ∧
    gateway_spec (gateway deadnode) = gateway_spec (gateway node) ∧
    Dict.get deadnode (node2collection self) = Some dead_collection ∧
    collection ≠ dead_collection.

(** ** Python strings

    A [str] is a [string]: a sequence of code points below 256. *)

(** The characters of a string, and the string of some characters. *)
Definition chars (s : string) : list Ascii.ascii :=
  String.list_ascii_of_string s.
Definition str (l : list Ascii.ascii) : string :=
  String.string_of_list_ascii l.

(** [str.isspace] for one character: the whitespace code points below 256
    are 9 to 13, 28 to 32, 133 and 160. *)
Definition isspace (c : Ascii.ascii) : bool :=
  let n := Ascii.nat_of_ascii c in
  ((9 <=? n) && (n <=? 13) || (28 <=? n) && (n <=? 32)
   || (n =? 133) || (n =? 160))%nat.

Fixpoint lstrip_chars (s : list Ascii.ascii) : list Ascii.ascii :=
  match s with
  | [] => []
  | c :: s' => if isspace c then lstrip_chars s' else s
  end.

(** [s.strip()] on the characters of [s]: whitespace is dropped at both
    ends. *)
Definition strip_chars (s : list Ascii.ascii) : list Ascii.ascii :=
  reverse (lstrip_chars (reverse (lstrip_chars s))).

(** [s.split(sep)] on the characters of [s], for a separator of one
    character: one piece more than there are separators, empty pieces
    kept. *)
Fixpoint split_chars (sep : Ascii.ascii) (s : list Ascii.ascii)
  : list (list Ascii.ascii) :=
  match s with
  | [] => [[]]
  | c :: s' =>
      if decide (c = sep) then [] :: split_chars sep s'
      else match split_chars sep s' with
           | piece :: pieces => (c :: piece) :: pieces
           | [] => [[c]]
           end
  end.

(** [sep.join(pieces)] on characters. *)
Fixpoint join_chars (sep : Ascii.ascii) (pieces : list (list Ascii.ascii))
  : list Ascii.ascii :=
  match pieces with
  | [] => []
  | piece :: rest =>
      match rest with
      | [] => piece
      | _ :: _ => piece ++ sep :: join_chars sep rest
      end
  end.

Definition str_strip (s : string) : string := str (strip_chars (chars s)).

Definition str_split (sep : Ascii.ascii) (s : string) : list string :=
  str <$> split_chars sep (chars s).

Definition str_join (sep : Ascii.ascii) (pieces : list string) : string :=
  str (join_chars sep (chars <$> pieces)).

(** ** The allow-list *)

(** The separator [","]. *)
Definition comma : Ascii.ascii := Ascii.ascii_of_nat 44.

(** The loop of [_parse_allowed_workers] over the pieces between commas:
    each is stripped and kept unless empty. *)
Fixpoint worker_ids_of (pieces : list string) : list string :=
  match pieces with
  | [] => []
  | worker_id :: rest =>
      match str_strip worker_id with
      | EmptyString => worker_ids_of rest
      | String c s => String c s :: worker_ids_of rest
      end
  end.

(** [_parse_allowed_workers], with [environ] for the value of
    [XDIST_ALLOWED_WORKERS] in [os.environ] when it is set.  The list is the
    [worker_ids] the set is built from; the scheduler asks the set only
    whether it is empty and whether it holds an id. *)
Definition _parse_allowed_workers (environ : option string) : list string :=
  match str_strip (default EmptyString environ) with
  | EmptyString => []
  | String c s => worker_ids_of (str_split comma (String c s))
  end.

(** [__init__], with [specs] for [len(parse_tx_spec_config(config))]. *)
Definition __init__ (specs : nat) (environ : option string)
  : EachScheduling :=
  init specs (_parse_allowed_workers environ).

(** A list of characters with no whitespace at either end. *)
Definition trimmed (s : list Ascii.ascii) : Prop :=
  (∀ c, head s = Some c → isspace c = false) ∧
  (∀ c, last s = Some c → isspace c = false).

(** ** Further invariants *)

(** Nothing dispatched, nothing orphaned: no worker started, no dead
    worker's remainder kept, every pending list empty. *)
Definition idle (self : EachScheduling) : Prop :=
  _started self = [] ∧ _removed2pending self = [] ∧
  ∀ node pending, (node, pending) ∈ node2pending self → pending = [].

(** No list of indices holds a negative index. *)
Definition pending_nonneg (self : EachScheduling) : Prop :=
  (∀ node pending index,
     (node, pending) ∈ node2pending self → index ∈ pending → 0 ≤ index) ∧
  (∀ node pending index,
     (node, pending) ∈ _removed2pending self → index ∈ pending →
     0 ≤ index).

(** The calls one worker can have received from the scheduler: none yet,
    [shutdown] alone if the allow-list excludes it, else
    [send_runtest_all] and [shutdown], or [send_runtest_some] with some
    indices. *)
Definition worker_calls (self : EachScheduling) (node : WorkerController)
    (evs : list event) : Prop :=
  evs = [] ∨
  (_is_allowed_worker self node = false ∧ evs = [shutdown node]) ∨
  (_is_allowed_worker self node = true ∧
   (evs = [send_runtest_all node; shutdown node] ∨
    ∃ pending, pending ≠ [] ∧ evs = [send_runtest_some node pending])).

(** The run in which every worker of [workers] joins, then every one
    reports its collection, then [schedule] is called. *)
Definition join_report_schedule (workers : list WorkerController)
    (collection_of : WorkerController → list string) : list call :=
  (Add_node <$> workers)
  ++ ((λ node, Add_node_collection node (collection_of node)) <$> workers)
  ++ [Schedule].

(** The run in which every worker of [workers] reports, one index after
    the other, every test of its collection done. *)
Definition complete_everything (workers : list WorkerController)
    (collection_of : WorkerController → list string) : list call :=
  workers ≫= λ node,
    Mark_test_complete node <$> range (length (collection_of node)).

(** The run in which [dead] is removed and [node] joins, reports
    [collection] and is scheduled. *)
Definition replace_worker (dead node : WorkerController)
    (collection : list string) : list call :=
  [Remove_node dead; Add_node node; Add_node_collection node collection;
   Schedule].

(** ** Workers and collections of the examples *)
Definition wA : WorkerController := mkWorker 0 (mkGateway "gw0" "popen").
Definition wB : WorkerController := mkWorker 1 (mkGateway "gw1" "popen").
Definition wC : WorkerController := mkWorker 2 (mkGateway "gw2" "popen").
Definition tests3 : list string := ["t1"; "t2"; "t3"]%string.
Definition tests10 : list string :=
  ["t0"; "t1"; "t2"; "t3"; "t4"; "t5"; "t6"; "t7"; "t8"; "t9"]%string.

(** * Properties *)

(** Membership in a list that is written out, by evaluation. *)
Ltac by_evaluation := apply (bool_decide_unpack _); vm_compute; exact I.

(** ** Dictionaries *)
Section dict_facts.
Context {K V : Type} `{EqDecision K}.
Implicit Types (k : K) (v : V) (d : list (K * V)).

Lemma dict_get_elem_of k v d : Dict.get k d = Some v → (k, v) ∈ d.
Proof.
  induction d as [|[k' v'] d IH]; simpl; [done|].
  case_decide; intros Hg.
  - simplify_eq. left.
  - right. auto.
Qed.

Lemma dict_get_None k d : Dict.get k d = None ↔ k ∉ Dict.keys d.
Proof.
  unfold Dict.keys.
  induction d as [|[k' v'] d IH]; simpl.
  - split; [intros _; apply not_elem_of_nil | done].
  - rewrite not_elem_of_cons. case_decide as Hk.
    + split; [done|]. intros [Hne _]. by destruct Hne.
    + rewrite IH. split; [by split; [apply not_eq_sym|]|by intros [_ ?]].
Qed.

Lemma dict_get_is_Some k d : is_Some (Dict.get k d) ↔ k ∈ Dict.keys d.
Proof.
  rewrite <- not_eq_None_Some, dict_get_None.
  destruct (decide (k ∈ Dict.keys d)); naive_solver.
Qed.

Lemma dict_mem_true k d : Dict.mem k d = true ↔ k ∈ Dict.keys d.
Proof. unfold Dict.mem. apply bool_decide_eq_true. Qed.

Lemma dict_mem_false k d : Dict.mem k d = false ↔ Dict.get k d = None.
Proof.
  unfold Dict.mem. rewrite bool_decide_eq_false. symmetry.
  apply dict_get_None.
Qed.

Lemma dict_elem_of_keys k v d : (k, v) ∈ d → k ∈ Dict.keys d.
Proof. intros Hin. unfold Dict.keys. apply (list_elem_of_fmap_2 fst _ _ Hin). Qed.

Lemma dict_keys_set_present k v d :
  k ∈ Dict.keys d → Dict.keys (Dict.set k v d) = Dict.keys d.
Proof.
  unfold Dict.keys.
  induction d as [|[k' v'] d IH]; simpl; intros Hin.
  - by apply elem_of_nil in Hin.
  - case_decide; csimpl; [done|].
    apply elem_of_cons in Hin as [->|Hin]; [done|]. f_equal. by apply IH.
Qed.

Lemma dict_set_absent k v d : k ∉ Dict.keys d → Dict.set k v d = d ++ [(k, v)].
Proof.
  unfold Dict.keys.
  induction d as [|[k' v'] d IH]; simpl; intros Hin; [done|].
  apply not_elem_of_cons in Hin as [Hne Hin].
  rewrite decide_False by done. by rewrite IH.
Qed.

Lemma dict_length_set k v d :
  length (Dict.set k v d)
  = if Dict.mem k d then length d else S (length d).
Proof.
  destruct (Dict.mem k d) eqn:Hm.
  - apply dict_mem_true in Hm.
    rewrite <- (length_fmap fst (Dict.set k v d)), <- (length_fmap fst d).
    f_equal. by apply dict_keys_set_present.
  - apply dict_mem_false, dict_get_None in Hm.
    rewrite dict_set_absent by done. rewrite length_app. simpl. lia.
Qed.

Lemma dict_get_set_eq k v d : Dict.get k (Dict.set k v d) = Some v.
Proof.
  induction d as [|[k' v'] d IH]; simpl.
  - by rewrite decide_True.
  - case_decide as Hk; simpl.
    + by rewrite decide_True.
    + by rewrite decide_False.
Qed.

Lemma dict_get_set_ne k k' v d :
  k ≠ k' → Dict.get k' (Dict.set k v d) = Dict.get k' d.
Proof.
  intros Hne. induction d as [|[k1 v1] d IH]; simpl.
  - by rewrite decide_False.
  - case_decide as Hk; simpl.
    + subst k1. by rewrite !decide_False.
    + case_decide; [done|]. apply IH.
Qed.

Lemma dict_elem_of_set k v kv d :
  kv ∈ Dict.set k v d → kv = (k, v) ∨ kv ∈ d.
Proof.
  induction d as [|[k1 v1] d IH]; simpl.
  - intros Hin. apply list_elem_of_singleton in Hin. by left.
  - case_decide as Hk; intros Hin; apply elem_of_cons in Hin as [->|Hin].
    + subst k1. by left.
    + right. by right.
    + right. left.
    + destruct (IH Hin) as [->|Hd]; [by left|]. right. by right.
Qed.

Lemma dict_wf_set k v d : Dict.wf d → Dict.wf (Dict.set k v d).
Proof.
  unfold Dict.wf. intros Hwf.
  destruct (decide (k ∈ Dict.keys d)) as [Hin|Hin].
  - by rewrite (dict_keys_set_present k v d Hin).
  - rewrite dict_set_absent by done. unfold Dict.keys in *.
    rewrite fmap_app. simpl. apply NoDup_app. split_and!; [done| |].
    + intros x Hx Hx'. apply list_elem_of_singleton in Hx'. by subst x.
    + apply NoDup_singleton.
Qed.

Lemma dict_pop_None k d : Dict.pop k d = None ↔ Dict.get k d = None.
Proof.
  induction d as [|[k1 v1] d IH]; simpl; [done|].
  case_decide; [done|].
  destruct (Dict.pop k d) as [[w r]|].
  - split; [done|]. intros Hg. by apply IH in Hg.
  - split; [|done]. intros _. by apply IH.
Qed.

Lemma dict_pop_Some k v d r :
  Dict.pop k d = Some (v, r) →
  Dict.get k d = Some v ∧ (∀ kv, kv ∈ r → kv ∈ d) ∧
  (∀ k', k' ≠ k → Dict.get k' r = Dict.get k' d) ∧
  (Dict.wf d → Dict.wf r ∧ Dict.get k r = None).
Proof.
  revert r. induction d as [|[k1 v1] d IH]; simpl; intros r Hp; [done|].
  case_decide as Hk.
  - simplify_eq. split_and!; [done| by right| |].
    + intros k' Hne. by rewrite decide_False.
    + unfold Dict.wf. simpl. intros [Hn Hwf]%NoDup_cons. split; [done|].
      by apply dict_get_None.
  - destruct (Dict.pop k d) as [[w r']|] eqn:Hpop; [|done]. simplify_eq.
    destruct (IH _ eq_refl) as (Hg & Hsub & Hne & Hwf).
    split_and!; [done| | |].
    + intros kv [->|Hin]%elem_of_cons; [left|right; auto].
    + intros k' Hk'. simpl. case_decide; [done|]. by apply Hne.
    + unfold Dict.wf in *. simpl. intros [Hn Hd]%NoDup_cons.
      destruct (Hwf Hd) as [Hr Hgr]. split.
      * apply NoDup_cons. split; [|done].
        intros Hin. apply Hn. unfold Dict.keys in *.
        apply list_elem_of_fmap in Hin as ([k2 v2] & -> & Hin).
        apply (dict_elem_of_keys _ _ _ (Hsub _ Hin)).
      * by rewrite decide_False.
Qed.

Lemma dict_pop_get k v d :
  Dict.get k d = Some v → ∃ r, Dict.pop k d = Some (v, r).
Proof.
  induction d as [|[k1 v1] d IH]; simpl; [done|].
  case_decide; intros Hg.
  - simplify_eq. eauto.
  - destruct (IH Hg) as [r ->]. eauto.
Qed.
End dict_facts.

(** ** Python lists *)

Lemma list_remove_None x l : list_remove x l = None ↔ x ∉ l.
Proof.
  induction l as [|y l IH]; simpl.
  - split; [intros _; apply not_elem_of_nil | done].
  - rewrite not_elem_of_cons. case_decide as Hy.
    + split; [done|]. intros [Hne _]. by destruct Hne.
    + destruct (list_remove x l) as [r|].
      * split; [done|]. intros [_ Hin]. by apply IH in Hin.
      * split; [|done]. intros _. split; [by apply not_eq_sym|by apply IH].
Qed.

Lemma list_remove_Some x l r :
  list_remove x l = Some r →
  ∃ l1 l2, l = l1 ++ x :: l2 ∧ r = l1 ++ l2 ∧ x ∉ l1.
Proof.
  revert r. induction l as [|y l IH]; simpl; intros r Hr; [done|].
  case_decide as Hy.
  - injection Hr as <-. subst y.
    exists [], l. split_and!; [done..|apply not_elem_of_nil].
  - destruct (list_remove x l) as [r'|]; [|done]. simplify_eq.
    destruct (IH _ eq_refl) as (l1 & l2 & -> & -> & Hn).
    exists (y :: l1), l2. split_and!; [done..|].
    apply not_elem_of_cons. split; [by apply not_eq_sym|done].
Qed.

Lemma list_remove_sorted x l r :
  list_remove x l = Some r →
  StronglySorted Z.lt l → StronglySorted Z.lt r.
Proof.
  intros (l1 & l2 & -> & -> & _)%list_remove_Some.
  rewrite !StronglySorted_app, StronglySorted_cons.
  intros (Hall & H1 & _ & H2). split_and!; [|done..].
  intros x1 x2 Hx1 Hx2. apply Hall; [done|]. by right.
Qed.

Lemma range_sorted n : StronglySorted Z.lt (range n).
Proof.
  unfold range. generalize 0%nat.
  induction n as [|n IH]; intros s; csimpl; constructor; [apply IH|].
  apply Forall_forall. intros z (i & -> & Hi)%list_elem_of_fmap.
  apply elem_of_seq in Hi. lia.
Qed.

Lemma elem_of_range n i : i ∈ range n ↔ 0 ≤ i < Z.of_nat n.
Proof.
  unfold range. rewrite list_elem_of_fmap. split.
  - intros (k & -> & Hk). apply elem_of_seq in Hk. lia.
  - intros Hi. exists (Z.to_nat i). split; [lia|]. apply elem_of_seq. lia.
Qed.

(** ** Calls on the workers *)

Lemma sent_to_app node evs1 evs2 :
  sent_to node (evs1 ++ evs2) = sent_to node evs1 ++ sent_to node evs2.
Proof. apply filter_app. Qed.

Lemma sent_to_none node evs :
  (∀ e, e ∈ evs → receiver e ≠ Some node) → sent_to node evs = [].
Proof.
  intros Hall. unfold sent_to.
  induction evs as [|e evs IH]; [done|].
  rewrite filter_cons, decide_False by (apply Hall; left).
  apply IH. intros e' He'. apply Hall. by right.
Qed.

Lemma sent_to_all node evs :
  (∀ e, e ∈ evs → receiver e = Some node) → sent_to node evs = evs.
Proof.
  intros Hall. unfold sent_to.
  induction evs as [|e evs IH]; [done|].
  rewrite filter_cons, decide_True by (apply Hall; left).
  f_equal. apply IH. intros e' He'. apply Hall. by right.
Qed.

Lemma runs_sent_to_app node evs1 evs2 :
  runs_sent_to node (evs1 ++ evs2)
  = (runs_sent_to node evs1 + runs_sent_to node evs2)%nat.
Proof.
  unfold runs_sent_to. by rewrite sent_to_app, filter_app, length_app.
Qed.

(** ** The loop of [schedule] *)

Lemma schedule_node_cases self started node pending :
  schedule_node_case self started node pending
    (schedule_node self started node pending).
Proof.
  unfold schedule_node.
  destruct (decide (node ∈ started)) as [Hin|Hin]; [by constructor|].
  destruct (_is_allowed_worker self node) eqn:Hallowed; simpl;
    [|by constructor].
  destruct pending as [|index rest] eqn:Hpending.
  - destruct (Dict.get node (node2collection self)) eqn:Hget;
      by econstructor.
  - by constructor.
Qed.

(** What the body sends goes to the entry's own worker. *)
Lemma schedule_node_receiver self started node pending pending' started' evs :
  schedule_node self started node pending = Some (pending', started', evs) →
  ∀ e, e ∈ evs → receiver e = Some node.
Proof.
  intros Heq e He. pose proof (schedule_node_cases self started node pending) as Hc.
  rewrite Heq in Hc. inversion Hc; subst;
    repeat (apply elem_of_cons in He as [->|He]; [done|]);
    by apply elem_of_nil in He.
Qed.

(** The body leaves a started worker alone. *)
Lemma schedule_node_started self started node pending :
  node ∈ started →
  schedule_node self started node pending = Some (pending, started, []).
Proof. intros Hin. unfold schedule_node. by rewrite decide_True. Qed.

(** The body ends with the worker started, whichever branch it took. *)
Lemma schedule_node_marks self started node pending pending' started' evs :
  schedule_node self started node pending = Some (pending', started', evs) →
  node ∈ started' ∧ started `prefix_of` started' ∧
  (runs_sent_to node evs ≤ 1)%nat.
Proof.
  intros Heq. pose proof (schedule_node_cases self started node pending) as Hc.
  rewrite Heq in Hc.
  assert (node ∈ started ++ [node]) by (apply elem_of_app; right; left).
  inversion Hc; subst;
    (split_and!; [done|first [reflexivity|by apply prefix_app_r]|]).
  all: unfold runs_sent_to, sent_to;
    rewrite ?filter_cons, ?filter_nil; simpl;
    rewrite ?decide_True by done; rewrite ?filter_cons, ?filter_nil; simpl; lia.
Qed.

(** The loop reads only these two attributes of the scheduler. *)
Lemma schedule_node_ext self1 self2 started node pending :
  node2collection self1 = node2collection self2 →
  _allowed_workers self1 = _allowed_workers self2 →
  schedule_node self1 started node pending
  = schedule_node self2 started node pending.
Proof.
  intros Hc Ha. unfold schedule_node, _is_allowed_worker. by rewrite Hc, Ha.
Qed.

Lemma schedule_loop_ext self1 self2 items started :
  node2collection self1 = node2collection self2 →
  _allowed_workers self1 = _allowed_workers self2 →
  schedule_loop self1 items started = schedule_loop self2 items started.
Proof.
  intros Hc Ha. revert started.
  induction items as [|[node pending] rest IH]; intros started; simpl; [done|].
  rewrite (schedule_node_ext self1 self2) by done.
  destruct (schedule_node self2 started node pending) as [[[p st] evs]|];
    [|done].
  by rewrite IH.
Qed.

Section schedule_loop_facts.
Variable self : EachScheduling.

Lemma schedule_loop_keys items started :
  Dict.keys (entries (schedule_loop self items started)) = Dict.keys items.
Proof.
  unfold Dict.keys. revert started.
  induction items as [|[node pending] rest IH]; intros started; simpl; [done|].
  destruct (schedule_node self started node pending) as [[[p st] evs]|];
    csimpl; [|done].
  by rewrite IH.
Qed.

Lemma schedule_loop_started_grows items started :
  started `prefix_of` started_after (schedule_loop self items started).
Proof.
  revert started.
  induction items as [|[node pending] rest IH]; intros started; simpl; [done|].
  destruct (schedule_node self started node pending) as [[[p st] evs]|] eqn:Hn;
    simpl; [|done].
  etrans; [|apply IH]. by apply schedule_node_marks in Hn as (_ & ? & _).
Qed.

Lemma schedule_loop_started_mono items started node :
  node ∈ started → node ∈ started_after (schedule_loop self items started).
Proof.
  intros Hin. destruct (schedule_loop_started_grows items started) as [l ->].
  apply elem_of_app. by left.
Qed.

(** A started worker is passed over: nothing is sent to it and its
    entry stays as it is. *)
Lemma schedule_loop_skips items started node :
  node ∈ started →
  sent_to node (calls (schedule_loop self items started)) = [] ∧
  Dict.get node (entries (schedule_loop self items started))
  = Dict.get node items.
Proof.
  revert started.
  induction items as [|[n pending] rest IH]; intros started Hin; simpl; [done|].
  destruct (decide (n = node)) as [->|Hne].
  - rewrite schedule_node_started by done. simpl.
    rewrite decide_True by done. split; [|done]. by apply IH.
  - destruct (schedule_node self started n pending) as [[[p st] evs]|] eqn:Hn;
      simpl; [|by rewrite decide_False].
    rewrite decide_False by done.
    pose proof (schedule_node_marks _ _ _ _ _ _ _ Hn) as (_ & [l ->] & _).
    assert (node ∈ started ++ l) as Hin' by (apply elem_of_app; by left).
    destruct (IH _ Hin') as [IHs IHg]. split; [|done].
    rewrite sent_to_app, IHs, app_nil_r. apply sent_to_none.
    intros e He. rewrite (schedule_node_receiver _ _ _ _ _ _ _ Hn e He).
    congruence.
Qed.

(** No worker is ordered to run more than once by one pass, and none that
    the pass found started. *)
Lemma schedule_loop_runs items started node :
  (runs_sent_to node (calls (schedule_loop self items started)) ≤ 1)%nat ∧
  (sent_to node (calls (schedule_loop self items started)) ≠ [] →
   (node ∉ started) ∧
   node ∈ started_after (schedule_loop self items started)).
Proof.
  revert started.
  induction items as [|[n pending] rest IH]; intros started; simpl.
  { split; [unfold runs_sent_to; simpl; lia|done]. }
  destruct (schedule_node self started n pending) as [[[p st] evs]|] eqn:Hn;
    simpl; [|split; [unfold runs_sent_to; simpl; lia|done]].
  pose proof (schedule_node_marks _ _ _ _ _ _ _ Hn) as (Hst & Hpre & Hle).
  pose proof (schedule_node_receiver _ _ _ _ _ _ _ Hn) as Hrecv.
  destruct (IH st) as [IHle IHin].
  rewrite runs_sent_to_app, sent_to_app.
  destruct (decide (n = node)) as [->|Hne].
  - destruct (schedule_loop_skips rest st node Hst) as [Hnone _].
    unfold runs_sent_to at 2. rewrite Hnone, app_nil_r. simpl.
    split; [lia|]. intros Hsent. split.
    + intros Hin. rewrite schedule_node_started in Hn by done.
      by simplify_eq.
    + by apply schedule_loop_started_mono.
  - assert (sent_to node evs = []) as Hnone.
    { apply sent_to_none. intros e He. rewrite (Hrecv e He). congruence. }
    unfold runs_sent_to at 1. rewrite Hnone. simpl. split; [lia|].
    intros Hsent. destruct (IHin Hsent) as [Hnin Hin]. split; [|done].
    intros Hs. apply Hnin. destruct Hpre as [l ->]. apply elem_of_app. by left.
Qed.

(** A second pass right after a first finds nothing to do, and stops where
    the first did. *)
Lemma schedule_loop_twice items started :
  let r := schedule_loop self items started in
  schedule_loop self (entries r) (started_after r)
  = mkScheduled (entries r) (started_after r) [] (raised r).
Proof.
  cbn zeta. revert started.
  induction items as [|[n pending] rest IH]; intros started; simpl; [done|].
  destruct (schedule_node self started n pending) as [[[p st] evs]|] eqn:Hn;
    simpl.
  - pose proof (schedule_node_marks _ _ _ _ _ _ _ Hn) as (Hst & _ & _).
    rewrite schedule_node_started
      by (by apply schedule_loop_started_mono).
    by rewrite IH.
  - by rewrite Hn.
Qed.
End schedule_loop_facts.

(** What the body does with a worker does not depend on which other
    workers are started. *)
Lemma schedule_node_indep self st1 st2 node pending pending' st1' evs :
  node ∉ st1 → node ∉ st2 →
  schedule_node self st1 node pending = Some (pending', st1', evs) →
  schedule_node self st2 node pending = Some (pending', st2 ++ [node], evs).
Proof.
  unfold schedule_node. intros H1 H2.
  rewrite !decide_False by done.
  repeat case_match; intros; by simplify_eq.
Qed.

Section schedule_loop_dispatch.
Variable self : EachScheduling.

Lemma schedule_loop_dispatch items started :
  Dict.wf items →
  (∀ node,
     Dict.get node items = Some [] → node ∉ started →
     _is_allowed_worker self node = true →
     is_Some (Dict.get node (node2collection self))) →
  raised (schedule_loop self items started) = None ∧
  ∀ node pending,
    Dict.get node items = Some pending → node ∉ started →
    ∃ pending' evs,
      schedule_node self started node pending
      = Some (pending', started ++ [node], evs) ∧
      Dict.get node (entries (schedule_loop self items started))
      = Some pending' ∧
      sent_to node (calls (schedule_loop self items started)) = evs ∧
      node ∈ started_after (schedule_loop self items started).
Proof.
  unfold Dict.wf, Dict.keys. revert started.
  induction items as [|[n p] rest IH]; intros started Hwf Hcoll; simpl;
    [done|].
  apply NoDup_cons in Hwf as [Hn Hwf].
  pose proof (schedule_node_cases self started n p) as Hcase.
  destruct (schedule_node self started n p) as [[[p' st'] evs]|] eqn:Hbody.
  2: { inversion Hcase as [| | |Hs Ha Hp Hg|]; subst.
       destruct (Hcoll n) as [c Hc]; [simpl; by rewrite decide_True|done..|].
       congruence. }
  pose proof (schedule_node_marks _ _ _ _ _ _ _ Hbody) as (Hst & Hpre & _).
  pose proof (schedule_node_receiver _ _ _ _ _ _ _ Hbody) as Hrecv.
  assert (∀ node, node ≠ n → node ∉ started → node ∉ st') as Hother.
  { intros node Hne Hnin. inversion Hcase; subst; try done.
    all: rewrite elem_of_app, list_elem_of_singleton; by intros [?|?]. }
  destruct (IH st' Hwf) as [IHr IHd].
  { intros node Hg Hnin Ha.
    assert (node ≠ n) as Hne.
    { intros ->. apply Hn. apply (dict_get_is_Some n rest). by eexists. }
    apply Hcoll; [simpl; by rewrite decide_False| |done].
    intros Hin. apply Hnin. destruct Hpre as [l ->]. apply elem_of_app.
    by left. }
  simpl. split; [done|]. intros node pending Hg Hnin.
  rewrite sent_to_app. case_decide as Hk.
  - subst n. injection Hg as ->.
    pose proof (schedule_node_indep _ _ _ _ _ _ _ _ Hnin Hnin Hbody) as Hb.
    exists p', evs. split_and!; [done|done| |].
    + destruct (schedule_loop_skips self rest st' node Hst) as [-> _].
      rewrite app_nil_r. by apply sent_to_all.
    + by apply schedule_loop_started_mono.
  - destruct (IHd node pending Hg) as (p'' & evs' & Hb & Hge & Hs & Hin);
      [by apply Hother|].
    exists p'', evs'. split_and!; [|done| |done].
    + eapply schedule_node_indep; [|done|exact Hb]. by apply Hother.
    + rewrite Hs. rewrite sent_to_none; [done|].
      intros e He. rewrite (Hrecv e He). congruence.
Qed.
End schedule_loop_dispatch.


(** ** What the calls leave alone *)

(** The hand-off changes [node2pending] and [_removed2pending] at most, and
    sends nothing to a worker. *)
Lemma replace_dead_frame node collection deadnodes self :
  let o := replace_dead node collection deadnodes self in
  numnodes (after o) = numnodes self ∧
  node2collection (after o) = node2collection self ∧
  _started (after o) = _started self ∧
  collection_is_completed (after o) = collection_is_completed self ∧
  _allowed_workers (after o) = _allowed_workers self ∧
  ∀ e, e ∈ emitted o → receiver e = None.
Proof.
  cbn zeta. induction deadnodes as [|deadnode rest IH]; simpl.
  { split_and!; [done..|]. by intros ev Hev%elem_of_nil. }
  repeat case_match; try done; simpl; split_and!; try done;
    try (by intros ev Hev%elem_of_nil).
  by intros ev ->%list_elem_of_singleton.
Qed.

(** Only [schedule] calls the workers, and only [schedule] touches
    [_started]. *)
Lemma perform_not_schedule c self :
  c ≠ Schedule →
  _started (perform c self).1 = _started self ∧
  ∀ e, e ∈ (perform c self).2 → receiver e = None.
Proof.
  intros Hc. destruct c as [node|node collection|node item_index|node|];
    simpl; [| | | |done].
  - unfold add_node. case_match; simpl; split; try done;
      by intros ev Hev%elem_of_nil.
  - unfold add_node_collection.
    destruct (negb (Dict.mem node (node2pending self)));
      [split; [done|by intros ev Hev%elem_of_nil]|].
    destruct (negb (collection_is_completed self)).
    { simpl. case_match; (split; [done|by intros ev Hev%elem_of_nil]). }
    destruct (_removed2pending self) as [|dead removed] eqn:Hremoved;
      [split; [done|by intros ev Hev%elem_of_nil]|].
    pose proof (replace_dead_frame node collection
                  (Dict.keys (dead :: removed)) self) as Hf.
    cbn zeta in Hf. by destruct Hf as (_ & _ & Hs & _ & _ & He).
  - unfold mark_test_complete.
    repeat case_match; simpl; split; try done; by intros ev Hev%elem_of_nil.
  - unfold remove_node.
    repeat case_match; simpl; split; try done; by intros ev Hev%elem_of_nil.
Qed.

Lemma started_grows c self :
  _started self `prefix_of` _started (perform c self).1.
Proof.
  destruct (decide (c = Schedule)) as [->|Hc].
  - simpl. unfold schedule. case_match; simpl; [done|].
    apply schedule_loop_started_grows.
  - by destruct (perform_not_schedule c self Hc) as [-> _].
Qed.

Lemma perform_runs c self node :
  (runs_sent_to node (perform c self).2 ≤ 1)%nat ∧
  (node ∈ _started self → sent_to node (perform c self).2 = []) ∧
  (sent_to node (perform c self).2 ≠ [] → node ∈ _started (perform c self).1).
Proof.
  destruct (decide (c = Schedule)) as [->|Hc].
  - simpl. unfold schedule. case_match; simpl.
    { split_and!; [unfold runs_sent_to; simpl; lia|done..]. }
    destruct (schedule_loop_runs self (node2pending self) (_started self) node)
      as [Hle Hin].
    split_and!; [done| |by intros [_ ?]%Hin].
    intros Hs. by apply schedule_loop_skips.
  - destruct (perform_not_schedule c self Hc) as [_ He].
    assert (sent_to node (perform c self).2 = []) as Hnone.
    { apply sent_to_none. intros e Hin. by rewrite (He e Hin). }
    unfold runs_sent_to. rewrite Hnone. split_and!; [simpl; lia|done..].
Qed.

Lemma run_runs cs self node :
  (runs_sent_to node (run cs self).2 ≤ 1)%nat ∧
  (node ∈ _started self → sent_to node (run cs self).2 = []).
Proof.
  revert self. induction cs as [|c cs IH]; intros self; simpl.
  { split; [unfold runs_sent_to; simpl; lia|done]. }
  destruct (perform c self) as [self1 evs1] eqn:Hp.
  destruct (run cs self1) as [self2 evs2] eqn:Hr. cbn [fst snd].
  pose proof (perform_runs c self node) as (Hle & Hskip & Hmark).
  pose proof (started_grows c self) as [l Hpre].
  pose proof (IH self1) as [IHle IHskip].
  rewrite Hp in *. rewrite Hr in *. cbn [fst snd] in *.
  rewrite runs_sent_to_app, sent_to_app. split.
  - destruct (sent_to node evs1) as [|e evs] eqn:Hs.
    + unfold runs_sent_to at 1. rewrite Hs. simpl. lia.
    + unfold runs_sent_to at 2. rewrite IHskip; [simpl; lia|].
      by apply Hmark.
  - intros Hin. rewrite Hskip by done. apply IHskip.
    rewrite Hpre. apply elem_of_app. by left.
Qed.

(** ** Registered workers *)

Lemma unregistered_get self node :
  node ∉ nodes self ↔ Dict.get node (node2pending self) = None.
Proof. unfold nodes. symmetry. apply dict_get_None. Qed.

Lemma forallb_elem_of {A} (f : A → bool) (l : list A) :
  forallb f l = true ↔ ∀ x, x ∈ l → f x = true.
Proof.
  rewrite forallb_forall.
  split; intros Hf x Hx; apply Hf; by apply list_elem_of_In.
Qed.

(** ** Completion of collection *)

Lemma replace_dead_completed node collection deadnodes self :
  collection_is_completed (after (replace_dead node collection deadnodes self))
  = collection_is_completed self.
Proof.
  induction deadnodes as [|deadnode rest IH]; simpl; [done|].
  repeat case_match; done.
Qed.

Lemma completed_monotone c self :
  collection_is_completed self = true →
  collection_is_completed (perform c self).1 = true.
Proof.
  intros Hc. destruct c as [node|node collection|node item_index|node|]; simpl.
  - unfold add_node. by case_match.
  - unfold add_node_collection. rewrite Hc. simpl.
    repeat case_match; try done. by rewrite replace_dead_completed.
  - unfold mark_test_complete. by repeat case_match.
  - unfold remove_node. by repeat case_match.
  - unfold schedule. by rewrite Hc.
Qed.

(** ** Reports after collection is complete *)

(** The search passes over the dead workers of another spec. *)
Lemma replace_dead_skip node collection before deadnodes self :
  (∀ deadnode, deadnode ∈ before →
     gateway_spec (gateway deadnode) ≠ gateway_spec (gateway node)) →
  replace_dead node collection (before ++ deadnodes) self
  = replace_dead node collection deadnodes self.
Proof.
  intros Hne. induction before as [|deadnode before IH]; simpl; [done|].
  rewrite decide_False by (apply Hne; left).
  apply IH. intros d Hd. apply Hne. by right.
Qed.

(** A report without a dead worker of its spec changes nothing at all. *)
Lemma late_report_without_match self node collection :
  node ∈ nodes self →
  collection_is_completed self = true →
  (∀ deadnode, deadnode ∈ Dict.keys (_removed2pending self) →
     gateway_spec (gateway deadnode) ≠ gateway_spec (gateway node)) →
  add_node_collection node collection self = ret tt self.
Proof.
  intros Hin Hc Hne. unfold add_node_collection.
  rewrite (proj2 (dict_mem_true _ _) Hin), Hc. simpl.
  destruct (_removed2pending self) as [|dead removed] eqn:Hremoved; [done|].
  rewrite <- (app_nil_r (Dict.keys _)). by rewrite replace_dead_skip.
Qed.

(** No report made after collection is complete is recorded. *)
Lemma late_report_not_recorded self node collection :
  collection_is_completed self = true →
  node2collection (after (add_node_collection node collection self))
  = node2collection self.
Proof.
  intros Hc. unfold add_node_collection. rewrite Hc. simpl.
  destruct (negb (Dict.mem node (node2pending self))); [done|].
  destruct (_removed2pending self) as [|dead removed]; [done|].
  pose proof (replace_dead_frame node collection
                (Dict.keys (dead :: removed)) self) as Hf.
  cbn zeta in Hf. by destruct Hf as (_ & ? & _).
Qed.

Lemma reachable_run cs self : reachable self → reachable (run cs self).1.
Proof.
  revert self. induction cs as [|c cs IH]; intros self Hr; simpl; [done|].
  pose proof (reachable_perform c self Hr) as Hr1.
  destruct (perform c self) as [self1 evs1].
  specialize (IH self1 Hr1). by destruct (run cs self1).
Qed.

(** ** Increasing lists of indices *)

Lemma schedule_loop_entries self items started node pending :
  (node, pending) ∈ entries (schedule_loop self items started) →
  (node, pending) ∈ items ∨ ∃ n, pending = range n.
Proof.
  revert started.
  induction items as [|[n p] rest IH]; intros started; simpl; [by left|].
  pose proof (schedule_node_cases self started n p) as Hcase.
  destruct (schedule_node self started n p) as [[[p' st'] evs]|];
    simpl; [|by left].
  intros [Heq|Hin]%elem_of_cons.
  - injection Heq as -> ->.
    inversion Hcase; subst; eauto; left; left.
  - destruct (IH _ Hin) as [?|?]; [left; by right|by right].
Qed.

Lemma replace_dead_increasing node collection deadnodes self :
  pending_increasing self →
  pending_increasing (after (replace_dead node collection deadnodes self)).
Proof.
  intros Hinc.
  induction deadnodes as [|deadnode rest IH]; simpl; [done|].
  case_decide; [|apply IH].
  destruct (Dict.get deadnode (node2collection self)); [|done].
  case_decide; [done|].
  destruct (Dict.pop deadnode (_removed2pending self)) as [[pending removed]|]
    eqn:Hpop; [|done].
  destruct (dict_pop_Some _ _ _ _ Hpop) as (Hg%dict_get_elem_of & Hrem & _).
  destruct Hinc as [Hp Hr]. split; simpl.
  - intros n p [Heq|Hin]%dict_elem_of_set; [|by eapply Hp].
    injection Heq as -> ->. by eapply Hr.
  - intros n p Hin%Hrem. by eapply Hr.
Qed.

Lemma perform_increasing c self :
  pending_increasing self → pending_increasing (perform c self).1.
Proof.
  intros Hinc. pose proof Hinc as [Hp Hr].
  destruct c as [node|node collection|node item_index|node|]; simpl.
  - unfold add_node. case_match; [done|]. split; [|done]. simpl.
    intros n p [Heq|Hin]%dict_elem_of_set; [|by eapply Hp].
    injection Heq as -> ->. constructor.
  - unfold add_node_collection.
    destruct (negb (Dict.mem node (node2pending self))); [done|].
    destruct (negb (collection_is_completed self)).
    + assert (pending_increasing
                (with_node2pending
                   (Dict.set node [] (node2pending self))
                   (with_node2collection
                      (Dict.set node collection (node2collection self))
                      self))) as Hinc'.
      { split; [|done]. simpl.
        intros n p [Heq|Hin]%dict_elem_of_set; [|by eapply Hp].
        injection Heq as -> ->. constructor. }
      simpl. by case_match.
    + destruct (_removed2pending self) as [|dead removed] eqn:Hremoved;
        [done|].
      rewrite <- Hremoved. by apply replace_dead_increasing.
  - unfold mark_test_complete.
    destruct (Dict.get node (node2pending self)) as [pending|] eqn:Hg;
      [|done].
    destruct (list_remove item_index pending) as [pending'|] eqn:Hrm;
      [|done].
    split; [|done]. simpl.
    intros n p [Heq|Hin]%dict_elem_of_set; [|by eapply Hp].
    injection Heq as -> ->. eapply list_remove_sorted; [done|].
    eapply Hp. by apply dict_get_elem_of.
  - unfold remove_node.
    destruct (Dict.pop node (node2pending self)) as [[pending rest]|]
      eqn:Hpop; [|done].
    destruct (dict_pop_Some _ _ _ _ Hpop) as (Hg%dict_get_elem_of & Hrest & _).
    assert (pending_increasing (with_node2pending rest self)) as Hinc'.
    { split; [|done]. simpl. intros n p Hin%Hrest. by eapply Hp. }
    destruct pending as [|index pending']; [done|]. simpl.
    destruct (Dict.get node (node2collection self)); [|done].
    destruct (getitem _ index); [|done].
    destruct pending' as [|index' remainder] eqn:Hpending; [done|].
    rewrite <- Hpending in *.
    split; [by destruct Hinc'|]. simpl.
    intros n p [Heq|Hin]%dict_elem_of_set; [|by eapply Hr].
    injection Heq as -> ->. apply Hp in Hg.
    by apply StronglySorted_cons in Hg as [_ ?].
  - unfold schedule. case_match; [done|]. split; [|done]. simpl.
    intros n p [Hin|[k ->]]%schedule_loop_entries; [by eapply Hp|].
    apply range_sorted.
Qed.

Lemma StronglySorted_lt_NoDup (l : list Z) : StronglySorted Z.lt l → NoDup l.
Proof.
  induction 1 as [|x l Hs IH Hall]; constructor; [|done].
  intros Hin. rewrite Forall_forall in Hall. specialize (Hall x Hin). lia.
Qed.


(** ** Dictionaries stay dictionaries *)

Lemma replace_dead_wf node collection deadnodes self :
  dicts_wf self →
  dicts_wf (after (replace_dead node collection deadnodes self)).
Proof.
  intros Hwf. induction deadnodes as [|deadnode rest IH]; simpl; [done|].
  case_decide; [|apply IH].
  destruct (Dict.get deadnode (node2collection self)); [|done].
  case_decide; [done|].
  destruct (Dict.pop deadnode (_removed2pending self)) as [[pending removed]|]
    eqn:Hpop; [|done].
  destruct (dict_pop_Some _ _ _ _ Hpop) as (_ & _ & _ & Hr).
  destruct Hwf as (Hc & Hp & Hrm). destruct (Hr Hrm) as [Hrm' _].
  split_and!; simpl; [done|by apply dict_wf_set|done].
Qed.

Lemma perform_wf c self : dicts_wf self → dicts_wf (perform c self).1.
Proof.
  intros Hwf. pose proof Hwf as (Hc & Hp & Hr).
  destruct c as [node|node collection|node item_index|node|]; simpl.
  - unfold add_node. case_match; [done|].
    split_and!; simpl; [done|by apply dict_wf_set|done].
  - unfold add_node_collection.
    destruct (negb (Dict.mem node (node2pending self))); [done|].
    destruct (negb (collection_is_completed self)).
    + simpl. case_match; (split_and!; simpl; [by apply dict_wf_set..|done]).
    + destruct (_removed2pending self) as [|dead removed] eqn:Hremoved;
        [done|].
      rewrite <- Hremoved. by apply replace_dead_wf.
  - unfold mark_test_complete. repeat case_match; try done.
    split_and!; simpl; [done|by apply dict_wf_set|done].
  - unfold remove_node.
    destruct (Dict.pop node (node2pending self)) as [[pending rest]|]
      eqn:Hpop; [|done].
    destruct (dict_pop_Some _ _ _ _ Hpop) as (_ & _ & _ & Hrest).
    destruct (Hrest Hp) as [Hrest' _].
    repeat case_match; try done; split_and!; simpl; try done.
    by apply dict_wf_set.
  - unfold schedule. case_match; [done|].
    split_and!; simpl; [done| |done].
    unfold Dict.wf. by rewrite schedule_loop_keys.
Qed.

Lemma reachable_wf self : reachable self → dicts_wf self.
Proof.
  induction 1 as [n allowed|c self Hreach IH].
  - split_and!; apply NoDup_nil_2.
  - by apply perform_wf.
Qed.

(** ** Indices and collections *)

Lemma schedule_loop_get self items started node pending :
  Dict.get node (entries (schedule_loop self items started)) = Some pending →
  Dict.get node items = Some pending ∨
  ∃ collection,
    Dict.get node (node2collection self) = Some collection ∧
    pending = range (length collection).
Proof.
  revert started.
  induction items as [|[n p] rest IH]; intros started; simpl; [by left|].
  pose proof (schedule_node_cases self started n p) as Hcase.
  destruct (schedule_node self started n p) as [[[p' st'] evs]|];
    simpl; [|by left].
  case_decide as Hn; [|apply IH].
  subst n. intros [= ->].
  inversion Hcase; subst; eauto.
Qed.


(** Membership in a list written out, by evaluation. *)

(** * The claims *)

(** C1 (the code does not do this).  Claimed: a report made once
    collection is complete, by a registered worker whose spec no dead
    worker has, is stored in [node2collection] and leaves the worker's
    pending list empty.  With one expected worker, [wA] joins, reports
    and is scheduled, then [wB] joins: the report of [wB] leaves the whole
    scheduler as it was, so the pending list of [wB] stays empty, but
    [node2collection] gets no entry for [wB], and the next [schedule]
    raises [KeyError] at [self.node2collection[node]]. *)
Theorem late_report_is_dropped :
  let self :=
    (run [Add_node wA; Add_node_collection wA tests3; Schedule; Add_node wB]
       (init 1 [])).1 in
  collection_is_completed self = true ∧
  wB ∈ nodes self ∧
  _removed2pending self = [] ∧
  Dict.get wB (node2pending self) = Some [] ∧
  add_node_collection wB tests3 self = ret tt self ∧
  Dict.get wB
    (node2collection (after (add_node_collection wB tests3 self))) = None ∧
  value (schedule (after (add_node_collection wB tests3 self)))
  = Raise KeyError.
Proof.
  cbn zeta. split_and!; [reflexivity|by_evaluation|reflexivity..].
Qed.

(** C2 (the code does not do this).  Claimed: in every reachable state
    each index pending for a registered worker is below the length of the
    collection recorded for that worker, also for a replacement that
    inherited a dead worker's remainder.  With one expected worker, [wA]
    joins, reports three tests, is scheduled and removed; [wB] joins with
    the same spec and reports the same tests.  [wB] then holds the indices
    [1; 2] and no collection at all, and removing [wB] raises [KeyError]
    at [self.node2collection[node]]. *)
Theorem inherited_indices_lack_collection :
  let self :=
    (run [Add_node wA; Add_node_collection wA tests3; Schedule;
          Remove_node wA; Add_node wB; Add_node_collection wB tests3]
       (init 1 [])).1 in
  reachable self ∧
  Dict.get wB (node2pending self) = Some [1; 2] ∧
  Dict.get wB (node2collection self) = None ∧
  ¬ indices_in_range self ∧
  value (remove_node wB self) = Raise KeyError.
Proof.
  cbn zeta. split_and!; [|reflexivity..| |reflexivity].
  - apply reachable_run. constructor.
  - intros Hrange.
    destruct (Hrange wB [1; 2] 1) as (collection & Hget & _);
      [reflexivity|by_evaluation|discriminate Hget].
Qed.

(** C3 (the code does not do this).  Claimed: [schedule], called with
    collection complete, gives every worker not yet started the calls of
    its case and marks it started.  With one expected worker, [wA] joins,
    reports and is scheduled; [wB] joins and reports once collection is
    complete, which records nothing; [wA] dies with [1; 2] left and [wC],
    of its spec, joins, reports and takes the two indices over.  Both [wB]
    and [wC] are registered, allowed and not started, [wB] with nothing
    pending and [wC] with [1; 2].  [schedule] raises [KeyError] at
    [self.node2collection[node]] for [wB]: it sends nothing, [wB] gets no
    pending list, and [wC], which comes after [wB] in [node2pending], is
    neither sent its indices nor started.  Calling [schedule] again
    changes nothing. *)
Theorem schedule_stops_at_unrecorded_worker :
  let self :=
    (run [Add_node wA; Add_node_collection wA tests3; Schedule;
          Add_node wB; Add_node_collection wB tests3;
          Remove_node wA;
          Add_node wC; Add_node_collection wC tests3]
       (init 1 [])).1 in
  reachable self ∧
  collection_is_completed self = true ∧
  nodes self = [wB; wC] ∧
  (wB ∉ _started self) ∧
  (wC ∉ _started self) ∧
  _is_allowed_worker self wB = true ∧
  _is_allowed_worker self wC = true ∧
  Dict.get wB (node2pending self) = Some [] ∧
  Dict.get wC (node2pending self) = Some [1; 2] ∧
  Dict.get wB (node2collection self) = None ∧
  schedule self = raise KeyError self ∧
  sent_to wB (emitted (schedule self)) = [] ∧
  sent_to wC (emitted (schedule self)) = [] ∧
  (wB ∉ _started (after (schedule self))) ∧
  (wC ∉ _started (after (schedule self))) ∧
  Dict.get wB (node2pending (after (schedule self))) = Some [] ∧
  schedule (after (schedule self)) = raise KeyError self.
Proof.
  cbn zeta. split_and!;
    first [reflexivity | by_evaluation | apply reachable_run; constructor].
Qed.

(** C4 (the code does not do this).  Claimed: [remove_node] of a
    registered worker with indices pending returns the item of its
    collection at the first of them and stashes the others under the
    worker.  With one expected worker, [wA] joins, reports three tests, is
    scheduled and dies with [1; 2] left; [wB], of its spec, joins, reports
    the same tests, takes the two indices over and is sent them by
    [schedule]; its report was recorded nowhere.  When [wB] dies in turn,
    [remove_node] pops its pending list and then raises [KeyError] at
    [self.node2collection[node]]: no crash item is returned, the index
    [2] is stashed nowhere, and with no worker left [tests_finished] is
    true although test [2] was never reported complete. *)
Theorem crashed_replacement_loses_remainder :
  let self :=
    (run [Add_node wA; Add_node_collection wA tests3; Schedule;
          Remove_node wA;
          Add_node wB; Add_node_collection wB tests3; Schedule]
       (init 1 [])).1 in
  reachable self ∧
  wB ∈ nodes self ∧
  wB ∈ _started self ∧
  Dict.get wB (node2pending self) = Some [1; 2] ∧
  _removed2pending self = [] ∧
  tests_finished self = false ∧
  value (remove_node wB self) = Raise KeyError ∧
  emitted (remove_node wB self) = [] ∧
  (wB ∉ nodes (after (remove_node wB self))) ∧
  Dict.get wB (_removed2pending (after (remove_node wB self))) = None ∧
  _removed2pending (after (remove_node wB self)) = [] ∧
  node2pending (after (remove_node wB self)) = [] ∧
  tests_finished (after (remove_node wB self)) = true.
Proof.
  cbn zeta. split_and!;
    first [reflexivity | by_evaluation | apply reachable_run; constructor].
Qed.

(** C5, as worded: some dead worker with the spec of the reporting worker
    recorded another collection.  [wA] and [wB] have the same spec and
    reported different tests; both were scheduled and died.  [wC], of that
    spec, reports the tests of [wA]: the search stops at [wA], the first
    dead worker of that spec, whose collection is equal, so [wC] takes over
    the indices of [wA] and nothing is logged, although [wB] is a dead
    worker of the same spec with another collection. *)
Lemma later_dead_mismatch_ignored :
  let self :=
    (run [Add_node wA; Add_node wB; Add_node_collection wA tests3;
          Add_node_collection wB ["t1"; "t2"; "tX"]%string; Schedule;
          Remove_node wA; Remove_node wB; Add_node wC]
       (init 2 [])).1 in
  wC ∈ nodes self ∧
  collection_is_completed self = true ∧
  some_dead_mismatch self wC tests3 ∧
  Dict.get wC (node2pending self) = Some [] ∧
  emitted (add_node_collection wC tests3 self) = [] ∧
  Dict.get wC (node2pending (after (add_node_collection wC tests3 self)))
  = Some [1; 2] ∧
  _removed2pending (after (add_node_collection wC tests3 self))
  = [(wB, [1; 2])].
Proof.
  cbn zeta. split_and!; [by_evaluation|reflexivity| |reflexivity..].
  exists wB, ["t1"; "t2"; "tX"]%string.
  split_and!; [by_evaluation|reflexivity..|discriminate].
Qed.

(** C5, amended.  A report made once collection is complete, by a
    registered worker, when the first dead worker in [_removed2pending]
    that has the reporting worker's spec recorded another collection:
    the call returns, the scheduler is left as it was (the dead worker's
    entry, the reporting worker's pending list and all the rest), and one
    message is logged, built from the two collections and the two ids. *)
Theorem first_dead_mismatch_refused
    self node collection before deadnode rest dead_collection :
  node ∈ nodes self →
  collection_is_completed self = true →
  Dict.keys (_removed2pending self) = before ++ deadnode :: rest →
  (∀ other, other ∈ before →
     gateway_spec (gateway other) ≠ gateway_spec (gateway node)) →
  gateway_spec (gateway deadnode) = gateway_spec (gateway node) →
  Dict.get deadnode (node2collection self) = Some dead_collection →
  collection ≠ dead_collection →
  value (add_node_collection node collection self) = Return tt ∧
  after (add_node_collection node collection self) = self ∧
  emitted (add_node_collection node collection self)
  = [log (report_collection_diff dead_collection collection
            (gateway_id (gateway deadnode)) (gateway_id (gateway node)))].
Proof.
  intros Hin Hc Hkeys Hbefore Hspec Hdead Hne.
  unfold add_node_collection.
  rewrite (proj2 (dict_mem_true _ _) Hin), Hc. simpl.
  destruct (_removed2pending self) as [|dead removed] eqn:Hremoved.
  { by destruct before. }
  rewrite Hkeys, replace_dead_skip by done. simpl.
  rewrite decide_True by done. rewrite Hdead. by rewrite decide_True.
Qed.

(** [wA] died with [1; 2] left of three tests; [wB], of the same spec,
    reports two tests only. *)
Lemma first_dead_mismatch_refused_witness :
  emitted
    (add_node_collection wB ["t1"; "t2"]%string
       (mkEachScheduling 1 [(wA, tests3)] [(wB, [])] [wA] [(wA, [1; 2])]
          true []))
  = [log (report_collection_diff tests3 ["t1"; "t2"]%string
            "gw0"%string "gw1"%string)].
Proof.
  destruct (first_dead_mismatch_refused
              (mkEachScheduling 1 [(wA, tests3)] [(wB, [])] [wA]
                 [(wA, [1; 2])] true [])
              wB ["t1"; "t2"]%string [] wA [] tests3) as (_ & _ & Hlog).
  - by_evaluation.
  - reflexivity.
  - reflexivity.
  - intros other Hother. by apply elem_of_nil in Hother.
  - reflexivity.
  - reflexivity.
  - discriminate.
  - exact Hlog.
Defined.

(** C6.  [tests_finished] is true exactly when collection is complete,
    [_removed2pending] is empty and every entry of [node2pending] holds
    fewer than two indices. *)
Theorem tests_finished_iff self :
  tests_finished self = true ↔
    collection_is_completed self = true ∧
    _removed2pending self = [] ∧
    ∀ node pending,
      (node, pending) ∈ node2pending self → (length pending < 2)%nat.
Proof.
  unfold tests_finished, Dict.values.
  destruct (collection_is_completed self); cbn [negb].
  2: { split; [done|]. by intros [? _]. }
  destruct (_removed2pending self) as [|dead removed].
  2: { split; [done|]. by intros (_ & ? & _). }
  rewrite forallb_elem_of. split.
  - intros Hall. split_and!; [done..|]. intros node pending Hin.
    specialize (Hall pending (list_elem_of_fmap_2 snd _ _ Hin)).
    apply negb_true_iff, Nat.leb_gt in Hall. lia.
  - intros (_ & _ & Hall) pending ([node p] & -> & Hin)%list_elem_of_fmap.
    apply negb_true_iff, Nat.leb_gt. apply (Hall node p Hin).
Qed.

(** One index left on [wA], none on [wB]: the tests are finished. *)
Lemma tests_finished_iff_witness :
  tests_finished
    (mkEachScheduling 2 [(wA, tests3); (wB, tests3)] [(wA, [2]); (wB, [])]
       [wA; wB] [] true [])
  = true.
Proof.
  apply (proj2 (tests_finished_iff _)). split_and!; [reflexivity..|].
  intros node pending Hin.
  apply elem_of_cons in Hin as [Hin|Hin%list_elem_of_singleton];
    injection Hin as -> ->; simpl; lia.
Defined.

(** C7.  A started worker is passed over by [schedule]: nothing is sent to
    it and its pending list stays.  A second [schedule] right after a
    first sends nothing, leaves the scheduler as the first left it and
    ends as the first did.  No call takes a worker out of [_started] or
    reorders it.  Over any run from a new scheduler a worker is ordered to
    run tests at most once. *)
Theorem dispatch_idempotent :
  (∀ self node,
     node ∈ _started self →
     sent_to node (emitted (schedule self)) = [] ∧
     Dict.get node (node2pending (after (schedule self)))
     = Dict.get node (node2pending self)) ∧
  (∀ self,
     emitted (schedule (after (schedule self))) = [] ∧
     after (schedule (after (schedule self))) = after (schedule self) ∧
     value (schedule (after (schedule self))) = value (schedule self)) ∧
  (∀ c self, _started self `prefix_of` _started (perform c self).1) ∧
  (∀ n allowed cs node,
     (runs_sent_to node (run cs (init n allowed)).2 ≤ 1)%nat).
Proof.
  split_and!.
  - intros self node Hin. unfold schedule. case_match; simpl; [done|].
    by apply schedule_loop_skips.
  - intros self. unfold schedule.
    destruct (collection_is_completed self) eqn:Hc; simpl; rewrite Hc; simpl;
      [|done].
    rewrite (schedule_loop_ext _ self) by done.
    pose proof (schedule_loop_twice self (node2pending self) (_started self))
      as Htwice. cbn zeta in Htwice. rewrite Htwice. simpl.
    by destruct self.
  - apply started_grows.
  - intros n allowed cs node. apply run_runs.
Qed.

(** [wA] is started and has [1; 2] left, [wB] has just reported. *)
Lemma dispatch_idempotent_witness :
  sent_to wA
    (emitted
       (schedule
          (mkEachScheduling 2 [(wA, tests3); (wB, tests3)]
             [(wA, [1; 2]); (wB, [])] [wA] [] true [])))
  = [] ∧
  Dict.get wA
    (node2pending
       (after
          (schedule
             (mkEachScheduling 2 [(wA, tests3); (wB, tests3)]
                [(wA, [1; 2]); (wB, [])] [wA] [] true []))))
  = Some [1; 2].
Proof.
  apply (proj1 dispatch_idempotent
           (mkEachScheduling 2 [(wA, tests3); (wB, tests3)]
              [(wA, [1; 2]); (wB, [])] [wA] [] true []) wA).
  by_evaluation.
Defined.

(** C8.  A report by a registered worker before collection is complete
    returns, stores the collection under the worker, sets the worker's
    pending list to the empty list, and leaves [collection_is_completed]
    true exactly when [node2collection], one entry longer if the worker
    had not reported before, now holds at least [numnodes] collections.
    No call turns [collection_is_completed] from true to false. *)
Theorem report_before_completion :
  (∀ self node collection,
     node ∈ nodes self →
     collection_is_completed self = false →
     value (add_node_collection node collection self) = Return tt ∧
     emitted (add_node_collection node collection self) = [] ∧
     node2collection (after (add_node_collection node collection self))
     = Dict.set node collection (node2collection self) ∧
     node2pending (after (add_node_collection node collection self))
     = Dict.set node [] (node2pending self) ∧
     Dict.get node
       (node2collection (after (add_node_collection node collection self)))
     = Some collection ∧
     Dict.get node
       (node2pending (after (add_node_collection node collection self)))
     = Some [] ∧
     length
       (node2collection (after (add_node_collection node collection self)))
     = (if Dict.mem node (node2collection self)
        then length (node2collection self)
        else S (length (node2collection self))) ∧
     (collection_is_completed
        (after (add_node_collection node collection self)) = true ↔
      (numnodes self
       ≤ length
           (node2collection
              (after (add_node_collection node collection self))))%nat)) ∧
  (∀ c self,
     collection_is_completed self = true →
     collection_is_completed (perform c self).1 = true).
Proof.
  split; [|intros c self; apply completed_monotone].
  intros self node collection Hin Hc. unfold add_node_collection.
  rewrite (proj2 (dict_mem_true _ _) Hin), Hc. simpl.
  destruct (numnodes self <=? _)%nat eqn:Hn; simpl;
    rewrite !dict_get_set_eq;
    (split_and!; [done..|apply dict_length_set|]).
  - apply Nat.leb_le in Hn. done.
  - apply Nat.leb_gt in Hn. rewrite Hc. split; [done|lia].
Qed.

(** Two workers are expected, [wA] has reported, [wB] reports. *)
Lemma report_before_completion_witness :
  collection_is_completed
    (after
       (add_node_collection wB tests3
          (mkEachScheduling 2 [(wA, tests3)] [(wA, []); (wB, [])] [] []
             false [])))
  = true ∧
  collection_is_completed
    (perform Schedule
       (mkEachScheduling 2 [(wA, tests3); (wB, tests3)]
          [(wA, []); (wB, [])] [] [] true [])).1
  = true.
Proof.
  split.
  - destruct (proj1 report_before_completion
                (mkEachScheduling 2 [(wA, tests3)] [(wA, []); (wB, [])] [] []
                   false [])
                wB tests3) as (_ & _ & _ & _ & _ & _ & _ & Hiff).
    + by_evaluation.
    + reflexivity.
    + apply Hiff. vm_compute. lia.
  - apply (proj2 report_before_completion). reflexivity.
Defined.

(** C9.  [add_node] of a registered worker raises [AssertionError];
    [schedule] before collection is complete raises [AssertionError];
    [mark_test_complete] of an index the worker's pending list does not
    hold raises [ValueError]; [remove_node] and [mark_test_complete] of an
    unregistered worker raise [KeyError].  Each leaves the scheduler as it
    was and sends nothing. *)
Theorem usage_errors_raise self node item_index :
  (node ∈ nodes self → add_node node self = raise AssertionError self) ∧
  (collection_is_completed self = false →
   schedule self = raise AssertionError self) ∧
  (∀ pending,
     Dict.get node (node2pending self) = Some pending →
     item_index ∉ pending →
     mark_test_complete node item_index self = raise ValueError self) ∧
  (node ∉ nodes self →
   remove_node node self = raise KeyError self ∧
   mark_test_complete node item_index self = raise KeyError self).
Proof.
  split_and!.
  - intros Hin. unfold add_node.
    by rewrite (proj2 (dict_mem_true _ _) Hin).
  - intros Hc. unfold schedule. by rewrite Hc.
  - intros pending Hg Hn. unfold mark_test_complete. rewrite Hg.
    by rewrite (proj2 (list_remove_None _ _) Hn).
  - intros Hg%unregistered_get. unfold remove_node, mark_test_complete.
    rewrite Hg. by rewrite (proj2 (dict_pop_None _ _) Hg).
Qed.

(** Collection is not complete, [wA] is registered with [0; 2] pending,
    [wB] is not registered. *)
Lemma usage_errors_raise_witness :
  add_node wA (mkEachScheduling 2 [] [(wA, [0; 2])] [] [] false [])
  = raise AssertionError
      (mkEachScheduling 2 [] [(wA, [0; 2])] [] [] false []) ∧
  schedule (mkEachScheduling 2 [] [(wA, [0; 2])] [] [] false [])
  = raise AssertionError
      (mkEachScheduling 2 [] [(wA, [0; 2])] [] [] false []) ∧
  mark_test_complete wA 1
    (mkEachScheduling 2 [] [(wA, [0; 2])] [] [] false [])
  = raise ValueError (mkEachScheduling 2 [] [(wA, [0; 2])] [] [] false []) ∧
  remove_node wB (mkEachScheduling 2 [] [(wA, [0; 2])] [] [] false [])
  = raise KeyError (mkEachScheduling 2 [] [(wA, [0; 2])] [] [] false []) ∧
  mark_test_complete wB 1
    (mkEachScheduling 2 [] [(wA, [0; 2])] [] [] false [])
  = raise KeyError (mkEachScheduling 2 [] [(wA, [0; 2])] [] [] false []).
Proof.
  destruct (usage_errors_raise
              (mkEachScheduling 2 [] [(wA, [0; 2])] [] [] false []) wA 1)
    as (Hjoin & Hschedule & Hmark & _).
  destruct (usage_errors_raise
              (mkEachScheduling 2 [] [(wA, [0; 2])] [] [] false []) wB 1)
    as (_ & _ & _ & Hunknown).
  split_and!.
  - apply Hjoin. by_evaluation.
  - apply Hschedule. reflexivity.
  - apply (Hmark [0; 2]); [reflexivity|by_evaluation].
  - apply Hunknown. by_evaluation.
  - apply Hunknown. by_evaluation.
Defined.

(** C10.  The lists of indices in [node2pending] and [_removed2pending]
    are strictly increasing in a new scheduler, stay so over every call,
    whether it returns or raises, hence are so in every reachable state;
    and a strictly increasing list holds no index twice. *)
Theorem pending_lists_increasing :
  (∀ n allowed, pending_increasing (init n allowed)) ∧
  (∀ c self,
     pending_increasing self → pending_increasing (perform c self).1) ∧
  (∀ self, reachable self → pending_increasing self) ∧
  (∀ self node pending,
     pending_increasing self →
     (node, pending) ∈ node2pending self ∨
     (node, pending) ∈ _removed2pending self →
     NoDup pending).
Proof.
  assert (∀ n allowed, pending_increasing (init n allowed)) as Hinit.
  { intros n allowed. split; simpl; by intros node pending Hin%elem_of_nil. }
  split_and!; [done|apply perform_increasing| |].
  - induction 1 as [n allowed|c self Hreach IH]; [done|].
    by apply perform_increasing.
  - intros self node pending [Hp Hr] [Hin|Hin];
      apply StronglySorted_lt_NoDup; eauto.
Qed.

(** [wA] holds [0; 1; 2] and reports test 1 done. *)
Lemma pending_lists_increasing_witness :
  pending_increasing
    (perform (Mark_test_complete wA 1)
       (mkEachScheduling 1 [(wA, tests3)] [(wA, [0; 1; 2])] [wA] [] true
          [])).1.
Proof.
  apply (proj1 (proj2 pending_lists_increasing)).
  split; simpl; intros node pending Hin.
  - apply list_elem_of_singleton in Hin. injection Hin as -> ->.
    repeat constructor; lia.
  - by apply elem_of_nil in Hin.
Defined.

(** * Further properties *)

(** X1.  What does keep the indices within the collections: every call
    but a report made once collection is complete. *)
Theorem indices_in_range_kept c self :
  Dict.wf (node2pending self) →
  not_late_report c self →
  indices_in_range self →
  indices_in_range (perform c self).1.
Proof.
  intros Hwf Hlate Hrange.
  destruct c as [node|node collection|node item_index|node|]; simpl.
  - unfold add_node. case_match; [done|]. simpl.
    intros n p i Hg Hi. simpl in Hg.
    destruct (decide (node = n)) as [->|Hne].
    + rewrite dict_get_set_eq in Hg. injection Hg as <-.
      by apply elem_of_nil in Hi.
    + rewrite dict_get_set_ne in Hg by done. by eapply Hrange.
  - simpl in Hlate. unfold add_node_collection. rewrite Hlate. simpl.
    destruct (negb (Dict.mem node (node2pending self))); [done|].
    assert (indices_in_range
              (with_node2pending
                 (Dict.set node [] (node2pending self))
                 (with_node2collection
                    (Dict.set node collection (node2collection self))
                    self))) as Hrange'.
    { intros n p i Hg Hi. simpl in *.
      destruct (decide (node = n)) as [->|Hne].
      - rewrite dict_get_set_eq in Hg. injection Hg as <-.
        by apply elem_of_nil in Hi.
      - rewrite dict_get_set_ne in Hg by done.
        rewrite dict_get_set_ne by done. by eapply Hrange. }
    by case_match.
  - unfold mark_test_complete.
    destruct (Dict.get node (node2pending self)) as [pending|] eqn:Hget;
      [|done].
    destruct (list_remove item_index pending) as [pending'|] eqn:Hrm;
      [|done].
    simpl. intros n p i Hg Hi. simpl in *.
    destruct (decide (node = n)) as [->|Hne].
    + rewrite dict_get_set_eq in Hg. injection Hg as <-.
      apply (Hrange n pending i Hget).
      destruct (list_remove_Some _ _ _ Hrm) as (l1 & l2 & -> & -> & _).
      rewrite elem_of_app in Hi. rewrite elem_of_app, elem_of_cons.
      destruct Hi; auto.
    + rewrite dict_get_set_ne in Hg by done. by eapply Hrange.
  - unfold remove_node.
    destruct (Dict.pop node (node2pending self)) as [[pending rest]|]
      eqn:Hpop; [|done].
    destruct (dict_pop_Some _ _ _ _ Hpop) as (_ & _ & Hother & Hrest).
    destruct (Hrest Hwf) as [_ Hgone].
    assert (indices_in_range (with_node2pending rest self)) as Hrange'.
    { intros n p i Hg Hi. simpl in *.
      destruct (decide (n = node)) as [->|Hne]; [congruence|].
      rewrite Hother in Hg by done. by eapply Hrange. }
    repeat case_match; done.
  - unfold schedule. case_match; [done|]. simpl.
    intros n p i Hg Hi. simpl in *.
    apply schedule_loop_get in Hg as [Hg|(collection & Hc & ->)].
    + by eapply Hrange.
    + exists collection. split; [done|]. apply elem_of_range in Hi. lia.
Qed.


(** [wA] has reported three tests and is scheduled. *)
Lemma indices_in_range_kept_witness :
  indices_in_range
    (perform Schedule
       (mkEachScheduling 1 [(wA, tests3)] [(wA, [])] [] [] true [])).1.
Proof.
  apply indices_in_range_kept; [by_evaluation|exact I|].
  intros node pending index Hget Hindex. simpl in Hget.
  case_decide; [|discriminate Hget]. injection Hget as <-.
  by apply elem_of_nil in Hindex.
Defined.

(** X2.  The hand-off itself.  A report made once collection is complete,
    by a registered worker, when the first dead worker in
    [_removed2pending] with the reporting worker's spec recorded the very
    collection reported: the reporting worker gets the dead worker's list
    of indices, the dead worker leaves [_removed2pending], the other dead
    workers stay, and nothing is logged. *)
Theorem first_dead_match_inherited
    self node collection before deadnode rest pending :
  node ∈ nodes self →
  collection_is_completed self = true →
  Dict.wf (_removed2pending self) →
  Dict.keys (_removed2pending self) = before ++ deadnode :: rest →
  (∀ other, other ∈ before →
     gateway_spec (gateway other) ≠ gateway_spec (gateway node)) →
  gateway_spec (gateway deadnode) = gateway_spec (gateway node) →
  Dict.get deadnode (node2collection self) = Some collection →
  Dict.get deadnode (_removed2pending self) = Some pending →
  value (add_node_collection node collection self) = Return tt ∧
  emitted (add_node_collection node collection self) = [] ∧
  Dict.get node
    (node2pending (after (add_node_collection node collection self)))
  = Some pending ∧
  Dict.get deadnode
    (_removed2pending (after (add_node_collection node collection self)))
  = None ∧
  (∀ other, other ≠ deadnode →
     Dict.get other
       (_removed2pending (after (add_node_collection node collection self)))
     = Dict.get other (_removed2pending self)).
Proof.
  intros Hin Hc Hwf Hkeys Hbefore Hspec Hdead Hpending.
  destruct (dict_pop_get _ _ _ Hpending) as [removed Hpop].
  destruct (dict_pop_Some _ _ _ _ Hpop) as (_ & _ & Hother & Hrest).
  destruct (Hrest Hwf) as [_ Hgone].
  assert (replace_dead node collection (Dict.keys (_removed2pending self)) self
          = ret tt
              (with_node2pending (Dict.set node pending (node2pending self))
                 (with_removed2pending removed self))) as Hloop.
  { rewrite Hkeys, replace_dead_skip by done. simpl.
    rewrite decide_True by done. rewrite Hdead.
    rewrite decide_False by (by intros ?). by rewrite Hpop. }
  unfold add_node_collection.
  rewrite (proj2 (dict_mem_true _ _) Hin), Hc. simpl.
  destruct (_removed2pending self) as [|dead removed0] eqn:Hremoved.
  { by destruct before. }
  rewrite Hloop. simpl.
  split_and!; [done..|apply dict_get_set_eq|done|done].
Qed.

(** [wA] died at test 3 with [7; 9] left; [wB], of the same spec, reports
    the same ten tests and owes [7; 9]. *)
Lemma first_dead_match_inherited_witness :
  Dict.get wB
    (node2pending
       (after
          (add_node_collection wB tests10
             (mkEachScheduling 1 [(wA, tests10)] [(wB, [])] [wA]
                [(wA, [7; 9])] true []))))
  = Some [7; 9].
Proof.
  destruct (first_dead_match_inherited
              (mkEachScheduling 1 [(wA, tests10)] [(wB, [])] [wA]
                 [(wA, [7; 9])] true [])
              wB tests10 [] wA [] [7; 9]) as (_ & _ & Hpending & _).
  - by_evaluation.
  - reflexivity.
  - by_evaluation.
  - reflexivity.
  - intros other Hother. by apply elem_of_nil in Hother.
  - reflexivity.
  - reflexivity.
  - reflexivity.
  - exact Hpending.
Defined.

(** X3.  [has_pending] is true exactly when some entry of [node2pending]
    holds an index. *)
Theorem has_pending_iff self :
  has_pending self = true ↔
    ∃ node pending, (node, pending) ∈ node2pending self ∧ pending ≠ [].
Proof.
  unfold has_pending, Dict.values. rewrite existsb_exists. split.
  - intros (pending & Hin & Hne).
    apply list_elem_of_In, list_elem_of_fmap in Hin as ([node p] & -> & Hin).
    exists node, p. split; [done|]. simpl in Hne. by destruct p.
  - intros (node & pending & Hin & Hne). exists pending. split.
    + apply list_elem_of_In. apply (list_elem_of_fmap_2 snd _ _ Hin).
    + by destruct pending.
Qed.

(** X4.  A worker cannot be removed twice: the second [remove_node]
    raises [KeyError], whatever the first did after it dropped the
    worker's entry. *)
Theorem remove_node_twice self node :
  Dict.wf (node2pending self) →
  node ∈ nodes self →
  remove_node node (after (remove_node node self))
  = raise KeyError (after (remove_node node self)).
Proof.
  intros Hwf [pending Hget]%dict_get_is_Some.
  destruct (dict_pop_get _ _ _ Hget) as [rest Hpop].
  destruct (dict_pop_Some _ _ _ _ Hpop) as (_ & _ & _ & Hrest).
  destruct (Hrest Hwf) as [_ Hgone]. apply dict_pop_None in Hgone.
  assert (node2pending (after (remove_node node self)) = rest) as Hafter.
  { unfold remove_node. rewrite Hpop. cbn zeta.
    repeat case_match; done. }
  unfold remove_node at 1. by rewrite Hafter, Hgone.
Qed.

(** [wA] dies with nothing pending and is removed again. *)
Lemma remove_node_twice_witness :
  value
    (remove_node wA
       (after
          (remove_node wA
             (mkEachScheduling 1 [(wA, tests3)] [(wA, [])] [wA] [] true
                []))))
  = Raise KeyError.
Proof.
  rewrite (remove_node_twice
             (mkEachScheduling 1 [(wA, tests3)] [(wA, [])] [wA] [] true []) wA).
  - reflexivity.
  - by_evaluation.
  - by_evaluation.
Defined.

(** A whole run: two workers join and report the same three tests,
    collection is complete at the second report, [schedule] sends each
    [send_runtest_all] and [shutdown], both complete tests 0, 1 and 2, and
    the tests are finished. *)
Example two_workers_run_everything :
  let reported :=
    (run [Add_node wA; Add_node wB; Add_node_collection wA tests3]
       (init 2 [])).1 in
  let complete := (perform (Add_node_collection wB tests3) reported).1 in
  let done :=
    run [Schedule;
         Mark_test_complete wA 0; Mark_test_complete wB 0;
         Mark_test_complete wA 1; Mark_test_complete wB 1;
         Mark_test_complete wA 2; Mark_test_complete wB 2] complete in
  collection_is_completed reported = false ∧
  collection_is_completed complete = true ∧
  done.2 = [send_runtest_all wA; shutdown wA;
            send_runtest_all wB; shutdown wB] ∧
  node2pending done.1 = [(wA, []); (wB, [])] ∧
  tests_finished done.1 = true.
Proof. cbn zeta. split_and!; reflexivity. Qed.

(** * The rest of the scheduler *)

(** ** Python strings *)

Lemma chars_str l : chars (str l) = l.
Proof. apply String.list_ascii_of_string_of_list_ascii. Qed.

Lemma str_chars s : str (chars s) = s.
Proof. apply String.string_of_list_ascii_of_string. Qed.

Lemma chars_inj s1 s2 : chars s1 = chars s2 → s1 = s2.
Proof. intros Heq. by rewrite <- (str_chars s1), Heq, str_chars. Qed.

Lemma str_empty l : str l = EmptyString ↔ l = [].
Proof.
  split; [|by intros ->].
  intros Heq. by rewrite <- (chars_str l), Heq.
Qed.

Lemma lstrip_chars_spec s :
  ∃ l, s = l ++ lstrip_chars s ∧ Forall (λ c, isspace c = true) l ∧
       ∀ c, head (lstrip_chars s) = Some c → isspace c = false.
Proof.
  induction s as [|c s IH]; simpl.
  - exists []. split_and!; [done|constructor|done].
  - destruct (isspace c) eqn:Hc.
    + destruct IH as (l & Hs & Hl & Hh). exists (c :: l).
      split_and!; [simpl; by f_equal|by constructor|done].
    + exists []. split_and!; [done|constructor|].
      simpl. by intros ? [= <-].
Qed.

Lemma lstrip_chars_spaces l s :
  Forall (λ c, isspace c = true) l → lstrip_chars (l ++ s) = lstrip_chars s.
Proof. induction 1 as [|c l Hc Hl IH]; simpl; [done|]. by rewrite Hc. Qed.

Lemma lstrip_chars_head s :
  (∀ c, head s = Some c → isspace c = false) → lstrip_chars s = s.
Proof.
  destruct s as [|c s]; simpl; [done|]. intros Hh. by rewrite (Hh c eq_refl).
Qed.

(** What is stripped is whitespace, what is left has none at its ends. *)
Lemma strip_chars_spec s :
  ∃ l r, s = l ++ strip_chars s ++ r ∧
         Forall (λ c, isspace c = true) l ∧
         Forall (λ c, isspace c = true) r ∧
         trimmed (strip_chars s).
Proof.
  unfold strip_chars.
  destruct (lstrip_chars_spec s) as (l & Hs & Hl & Hh).
  destruct (lstrip_chars_spec (reverse (lstrip_chars s)))
    as (r & Hr & Hrs & Hrh).
  set (m := lstrip_chars (reverse (lstrip_chars s))) in *.
  assert (lstrip_chars s = reverse m ++ reverse r) as Hm.
  { rewrite <- reverse_app, <- Hr. by rewrite reverse_involutive. }
  exists l, (reverse r). split_and!.
  - by rewrite <- Hm.
  - done.
  - by apply Forall_reverse.
  - split; intros c Hc.
    + apply Hh. rewrite Hm. destruct (reverse m); [done|]. done.
    + apply Hrh. by rewrite <- last_reverse.
Qed.

(** Stripping finds the trimmed middle of whitespace, middle, whitespace. *)
Lemma strip_chars_unique l m r :
  Forall (λ c, isspace c = true) l →
  Forall (λ c, isspace c = true) r →
  trimmed m →
  strip_chars (l ++ m ++ r) = m.
Proof.
  intros Hl Hr [Hhead Hlast]. unfold strip_chars.
  rewrite lstrip_chars_spaces by done.
  destruct m as [|c m].
  - simpl. replace (lstrip_chars r) with (@nil Ascii.ascii); [done|].
    rewrite <- (app_nil_r r). by rewrite lstrip_chars_spaces.
  - assert (lstrip_chars ((c :: m) ++ r) = (c :: m) ++ r) as ->.
    { apply lstrip_chars_head. simpl. apply Hhead. }
    rewrite reverse_app, lstrip_chars_spaces by (by apply Forall_reverse).
    rewrite lstrip_chars_head; [apply reverse_involutive|].
    intros c' Hc'. apply Hlast. by rewrite <- head_reverse.
Qed.

Lemma strip_chars_trimmed m : trimmed m → strip_chars m = m.
Proof.
  intros Hm. rewrite <- (app_nil_r m) at 1.
  by apply (strip_chars_unique [] m []).
Qed.

Lemma strip_chars_idemp s : strip_chars (strip_chars s) = strip_chars s.
Proof.
  destruct (strip_chars_spec s) as (_ & _ & _ & _ & _ & Ht).
  by apply strip_chars_trimmed.
Qed.

Lemma strip_chars_nil s :
  strip_chars s = [] ↔ Forall (λ c, isspace c = true) s.
Proof.
  split.
  - intros Hnil. destruct (strip_chars_spec s) as (l & r & Hs & Hl & Hr & _).
    rewrite Hs, Hnil. simpl. by apply Forall_app.
  - intros Hs. rewrite <- (app_nil_r s).
    apply (strip_chars_unique s [] []); [done|constructor|done].
Qed.

Lemma strip_chars_sublist s c : c ∈ strip_chars s → c ∈ s.
Proof.
  intros Hc. destruct (strip_chars_spec s) as (l & r & Hs & _).
  rewrite Hs, !elem_of_app. auto.
Qed.

(** Splitting and joining *)

Lemma split_chars_not_nil sep s : split_chars sep s ≠ [].
Proof.
  destruct s as [|c s]; simpl; [done|].
  case_decide; [done|]. by destruct (split_chars sep s).
Qed.

Lemma join_chars_cons sep piece pieces :
  pieces ≠ [] →
  join_chars sep (piece :: pieces) = piece ++ sep :: join_chars sep pieces.
Proof. by destruct pieces. Qed.

Lemma join_split_chars sep s : join_chars sep (split_chars sep s) = s.
Proof.
  induction s as [|c s IH]; simpl; [done|].
  pose proof (split_chars_not_nil sep s) as Hne.
  case_decide as Hc.
  - subst c. rewrite join_chars_cons by done. simpl. by f_equal.
  - destruct (split_chars sep s) as [|piece pieces]; [done|].
    destruct pieces as [|piece' pieces].
    + simpl in *. by f_equal.
    + rewrite join_chars_cons in IH by done.
      rewrite join_chars_cons by done. simpl. by f_equal.
Qed.

Lemma split_chars_no_sep sep s piece :
  piece ∈ split_chars sep s → sep ∉ piece.
Proof.
  revert piece. induction s as [|c s IH]; simpl; intros piece Hin.
  - apply list_elem_of_singleton in Hin as ->. apply not_elem_of_nil.
  - pose proof (split_chars_not_nil sep s) as Hne. case_decide as Hc.
    + apply elem_of_cons in Hin as [->|Hin]; [apply not_elem_of_nil|auto].
    + destruct (split_chars sep s) as [|p ps]; [done|].
      apply elem_of_cons in Hin as [->|Hin].
      * apply not_elem_of_cons. split; [by apply not_eq_sym|].
        apply IH. left.
      * apply IH. by right.
Qed.

Lemma split_chars_app sep p s :
  sep ∉ p →
  split_chars sep (p ++ sep :: s) = p :: split_chars sep s.
Proof.
  induction p as [|c p IH]; simpl; intros Hp.
  - by rewrite decide_True.
  - apply not_elem_of_cons in Hp as [Hc Hp].
    rewrite decide_False by (by apply not_eq_sym). by rewrite IH.
Qed.

Lemma split_chars_piece sep p : sep ∉ p → split_chars sep p = [p].
Proof.
  induction p as [|c p IH]; simpl; intros Hp; [done|].
  apply not_elem_of_cons in Hp as [Hc Hp].
  rewrite decide_False by (by apply not_eq_sym). by rewrite IH.
Qed.

Lemma split_join_chars sep pieces :
  pieces ≠ [] →
  (∀ piece, piece ∈ pieces → sep ∉ piece) →
  split_chars sep (join_chars sep pieces) = pieces.
Proof.
  induction pieces as [|piece pieces IH]; intros Hne Hsep; [done|].
  destruct pieces as [|piece' pieces].
  - simpl. apply split_chars_piece, Hsep. left.
  - rewrite join_chars_cons by done.
    rewrite split_chars_app by (apply Hsep; left).
    f_equal. apply IH; [done|]. intros p Hp. apply Hsep. by right.
Qed.

Lemma isspace_comma : isspace comma = false.
Proof. reflexivity. Qed.

Lemma spaces_no_comma l :
  Forall (λ c, isspace c = true) l → comma ∉ l.
Proof.
  intros Hl Hin. rewrite Forall_forall in Hl.
  specialize (Hl comma Hin). by rewrite isspace_comma in Hl.
Qed.

Lemma strip_chars_pad l s r :
  Forall (λ c, isspace c = true) l →
  Forall (λ c, isspace c = true) r →
  strip_chars (l ++ s ++ r) = strip_chars s.
Proof.
  intros Hl Hr.
  destruct (strip_chars_spec s) as (l' & r' & Hs & Hl' & Hr' & Ht).
  rewrite Hs at 1.
  replace (l ++ (l' ++ strip_chars s ++ r') ++ r)
    with ((l ++ l') ++ strip_chars s ++ (r' ++ r))
    by (by rewrite <- !app_assoc).
  apply strip_chars_unique; [by apply Forall_app..|done].
Qed.

Lemma join_chars_elem_of sep pieces c :
  c ∈ join_chars sep pieces → c = sep ∨ ∃ piece, piece ∈ pieces ∧ c ∈ piece.
Proof.
  induction pieces as [|piece pieces IH]; [by intros ?%elem_of_nil|].
  destruct pieces as [|piece' pieces].
  - simpl. intros Hc. right. exists piece. split; [left|done].
  - rewrite join_chars_cons by done.
    intros [Hc|[->|Hc]%elem_of_cons]%elem_of_app.
    + right. exists piece. split; [left|done].
    + by left.
    + destruct (IH Hc) as [->|(p & Hp & Hcp)]; [by left|].
      right. exists p. split; [by right|done].
Qed.

Lemma split_chars_elem_of sep s piece c :
  piece ∈ split_chars sep s → c ∈ piece → c ∈ s.
Proof.
  revert piece. induction s as [|c' s IH]; simpl; intros piece Hin Hc.
  - apply list_elem_of_singleton in Hin as ->. done.
  - pose proof (split_chars_not_nil sep s) as Hne. case_decide as Hsep.
    + apply elem_of_cons in Hin as [->|Hin]; [by apply elem_of_nil in Hc|].
      right. by eapply IH.
    + destruct (split_chars sep s) as [|p ps]; [done|].
      apply elem_of_cons in Hin as [->|Hin].
      * apply elem_of_cons in Hc as [->|Hc]; [left|right].
        apply (IH p); [left|done].
      * right. apply (IH piece); [by right|done].
Qed.

(** A separator-free prefix joins the first piece, a separator-free suffix
    the last. *)
Lemma split_chars_prefix sep l s :
  sep ∉ l →
  ∃ piece pieces,
    split_chars sep s = piece :: pieces ∧
    split_chars sep (l ++ s) = (l ++ piece) :: pieces.
Proof.
  intros Hl. pose proof (split_chars_not_nil sep s) as Hne.
  destruct (split_chars sep s) as [|piece pieces] eqn:Hs; [done|].
  exists piece, pieces. split; [done|].
  induction l as [|c l IH]; simpl; [done|].
  apply not_elem_of_cons in Hl as [Hc Hl].
  rewrite decide_False by (by apply not_eq_sym). by rewrite IH.
Qed.

Lemma split_chars_suffix sep s r :
  sep ∉ r →
  ∃ pieces piece,
    split_chars sep s = pieces ++ [piece] ∧
    split_chars sep (s ++ r) = pieces ++ [piece ++ r].
Proof.
  intros Hr. induction s as [|c s IH]; simpl.
  - exists [], []. split; [done|]. simpl. by apply split_chars_piece.
  - destruct IH as (pieces & piece & Hs & Hsr). rewrite Hs, Hsr.
    case_decide.
    + exists ([] :: pieces), piece. done.
    + destruct pieces as [|p ps]; simpl.
      * exists [], (c :: piece). done.
      * exists ((c :: p) :: ps), piece. done.
Qed.

(** ** The allow-list *)

Lemma str_strip_str l : str_strip (str l) = str (strip_chars l).
Proof. unfold str_strip. by rewrite chars_str. Qed.

Lemma worker_ids_of_filter pieces :
  worker_ids_of pieces
  = filter (λ s, s ≠ EmptyString) (str_strip <$> pieces).
Proof.
  induction pieces as [|piece pieces IH]; csimpl; [done|].
  rewrite filter_cons.
  destruct (str_strip piece) eqn:Hs.
  - by rewrite decide_False by (by intros ?).
  - rewrite decide_True by done. by rewrite IH.
Qed.

Lemma worker_ids_of_elem_of pieces worker_id :
  worker_id ∈ worker_ids_of pieces ↔
    worker_id ≠ EmptyString ∧
    ∃ piece, piece ∈ pieces ∧ str_strip piece = worker_id.
Proof.
  rewrite worker_ids_of_filter, list_elem_of_filter, list_elem_of_fmap.
  split.
  - intros [Hne (piece & -> & Hin)]. eauto.
  - intros [Hne (piece & Hin & <-)]. eauto.
Qed.

(** The loop depends on the pieces only through what stripping leaves. *)
Lemma worker_ids_of_ext pieces1 pieces2 :
  str_strip <$> pieces1 = str_strip <$> pieces2 →
  worker_ids_of pieces1 = worker_ids_of pieces2.
Proof. intros Heq. by rewrite !worker_ids_of_filter, Heq. Qed.

(** Stripping the whole string first does not change what the pieces
    strip to. *)
Lemma strip_split_chars s :
  strip_chars <$> split_chars comma (strip_chars s)
  = strip_chars <$> split_chars comma s.
Proof.
  destruct (strip_chars_spec s) as (l & r & Hs & Hl & Hr & _).
  set (x := strip_chars s) in *. rewrite Hs.
  destruct (split_chars_suffix comma x r (spaces_no_comma r Hr))
    as (pieces & piece & Hx & Hxr).
  destruct (split_chars_prefix comma l (x ++ r) (spaces_no_comma l Hl))
    as (p & ps & Hxr' & Hlxr).
  rewrite Hlxr, Hx. rewrite Hxr in Hxr'.
  destruct pieces as [|q qs]; simpl in Hxr'; injection Hxr' as <- <-; csimpl.
  - f_equal. symmetry.
    by apply (strip_chars_pad l piece r).
  - rewrite !fmap_app. csimpl. f_equal.
    + symmetry. rewrite <- (app_nil_r q) at 1.
      by apply (strip_chars_pad l q []).
    + do 2 f_equal. symmetry.
      by apply (strip_chars_pad [] piece r).
Qed.

Lemma parse_allowed_workers_chars environ :
  _parse_allowed_workers environ
  = worker_ids_of (str_split comma (default EmptyString environ)).
Proof.
  unfold _parse_allowed_workers, str_split.
  set (s := default EmptyString environ).
  assert (worker_ids_of (str <$> split_chars comma (chars (str_strip s)))
          = worker_ids_of (str <$> split_chars comma (chars s))) as Heq.
  { apply worker_ids_of_ext.
    assert (chars (str_strip s) = strip_chars (chars s)) as ->
      by (unfold str_strip; apply chars_str).
    rewrite <- !list_fmap_compose.
    rewrite !(list_fmap_ext (str_strip ∘ str) (str ∘ strip_chars))
      by (intros; apply str_strip_str).
    rewrite !list_fmap_compose. f_equal. apply strip_split_chars. }
  destruct (str_strip s) eqn:Hx; [|done].
  rewrite <- Heq. reflexivity.
Qed.

(** X5.  Every id [_parse_allowed_workers] collects is non-empty, holds no
    comma, and has no whitespace at either end. *)
Theorem allowed_ids_are_clean environ worker_id :
  worker_id ∈ _parse_allowed_workers environ →
  worker_id ≠ EmptyString ∧
  (comma ∉ chars worker_id) ∧
  str_strip worker_id = worker_id.
Proof.
  rewrite parse_allowed_workers_chars, worker_ids_of_elem_of.
  intros [Hne (piece & Hin & <-)]. split; [done|].
  unfold str_split in Hin.
  apply list_elem_of_fmap in Hin as (p & -> & Hin).
  rewrite str_strip_str. split.
  - rewrite chars_str. intros Hc%strip_chars_sublist.
    by apply (split_chars_no_sep _ _ _ Hin).
  - unfold str_strip. by rewrite chars_str, strip_chars_idemp.
Qed.

(** The variable holds [" gw0 , gw1,, ,gw2 "]; [gw1] is one of the ids. *)
Lemma allowed_ids_are_clean_witness :
  (comma ∉ chars "gw1") ∧ str_strip "gw1" = "gw1"%string.
Proof.
  destruct (allowed_ids_are_clean (Some " gw0 , gw1,, ,gw2 "%string) "gw1")
    as (_ & Hcomma & Hstrip).
  - by_evaluation.
  - by split.
Defined.

(** X6.  [_parse_allowed_workers] collects no id exactly when the variable
    is unset or holds nothing but whitespace and commas; a scheduler built
    then allows every worker. *)
Theorem no_allowed_ids_iff environ :
  (_parse_allowed_workers environ = [] ↔
   ∀ c, c ∈ chars (default EmptyString environ) →
        isspace c = true ∨ c = comma) ∧
  (_parse_allowed_workers environ = [] →
   ∀ specs node, _is_allowed_worker (__init__ specs environ) node = true).
Proof.
  split.
  2: { intros Hnil specs node.
       unfold _is_allowed_worker, __init__. simpl. by rewrite Hnil. }
  rewrite parse_allowed_workers_chars. unfold str_split.
  set (s := chars (default EmptyString environ)). split.
  - intros Hnil c Hc.
    rewrite <- (join_split_chars comma s) in Hc.
    apply join_chars_elem_of in Hc as [->|(piece & Hpiece & Hc)];
      [by right|left].
    assert (strip_chars piece = []) as Hstrip.
    { apply str_empty. rewrite <- str_strip_str.
      destruct (decide (str_strip (str piece) = EmptyString)) as [|Hne];
        [done|].
      assert (str_strip (str piece) ∈ @nil string) as Hin;
        [|by apply elem_of_nil in Hin].
      rewrite <- Hnil. apply worker_ids_of_elem_of. split; [done|].
      exists (str piece). split; [|done]. by apply list_elem_of_fmap_2. }
    apply strip_chars_nil in Hstrip. rewrite Forall_forall in Hstrip. auto.
  - intros Hall.
    destruct (worker_ids_of (str <$> split_chars comma s))
      as [|worker_id ids] eqn:Hids; [done|].
    assert (worker_id ∈ worker_ids_of (str <$> split_chars comma s)) as Hin
      by (rewrite Hids; left).
    apply worker_ids_of_elem_of in Hin as [Hne (piece & Hpiece & Hstrip)].
    apply list_elem_of_fmap in Hpiece as (p & -> & Hp).
    rewrite str_strip_str in Hstrip. destruct Hne. rewrite <- Hstrip.
    apply str_empty, strip_chars_nil, Forall_forall. intros c Hc.
    destruct (Hall c (split_chars_elem_of _ _ _ _ Hp Hc)) as [?| ->]; [done|].
    by destruct (split_chars_no_sep _ _ _ Hp).
Qed.

(** The variable holds [" , ,"]. *)
Lemma no_allowed_ids_iff_witness :
  _is_allowed_worker (__init__ 2 (Some " , ,"%string)) wA = true.
Proof.
  apply (proj2 (no_allowed_ids_iff (Some " , ,"%string))). reflexivity.
Defined.

(** X7.  Parsing comma-free pieces joined by commas gives the pieces
    stripped, the empty ones left out; so ids that are non-empty, hold no
    comma and have no whitespace at their ends come back as they are. *)
Theorem parse_joined_ids pieces :
  (∀ piece, piece ∈ pieces → comma ∉ chars piece) →
  _parse_allowed_workers (Some (str_join comma pieces))
  = filter (λ s, s ≠ EmptyString) (str_strip <$> pieces) ∧
  ((∀ piece, piece ∈ pieces →
      piece ≠ EmptyString ∧ str_strip piece = piece) →
   _parse_allowed_workers (Some (str_join comma pieces)) = pieces).
Proof.
  intros Hcomma.
  assert (_parse_allowed_workers (Some (str_join comma pieces))
          = filter (λ s, s ≠ EmptyString) (str_strip <$> pieces)) as Hparse.
  { rewrite parse_allowed_workers_chars, <- worker_ids_of_filter. simpl.
    destruct pieces as [|piece pieces]; [reflexivity|].
    unfold str_split, str_join. rewrite chars_str.
    rewrite split_join_chars.
    - rewrite <- list_fmap_compose.
      rewrite (list_fmap_ext (str ∘ chars) id) by (intros; apply str_chars).
      by rewrite list_fmap_id.
    - done.
    - intros p (q & -> & Hq)%list_elem_of_fmap. by apply Hcomma. }
  split; [done|]. intros Hclean. rewrite Hparse. clear Hparse Hcomma.
  induction pieces as [|piece pieces IH]; csimpl; [done|].
  destruct (Hclean piece) as [Hne Hstrip]; [left|].
  rewrite filter_cons, Hstrip, decide_True by done. f_equal.
  apply IH. intros p Hp. apply Hclean. by right.
Qed.

(** Three ids joined by commas. *)
Lemma parse_joined_ids_witness :
  _parse_allowed_workers (Some (str_join comma ["gw0"; "gw1"; "gw2"]%string))
  = ["gw0"; "gw1"; "gw2"]%string.
Proof.
  apply (parse_joined_ids ["gw0"; "gw1"; "gw2"]%string).
  - intros piece Hpiece.
    repeat (apply elem_of_cons in Hpiece as [->|Hpiece]; [by_evaluation|]).
    by apply elem_of_nil in Hpiece.
  - intros piece Hpiece.
    repeat (apply elem_of_cons in Hpiece as [->|Hpiece]; [by split|]).
    by apply elem_of_nil in Hpiece.
Defined.

(** ** Before collection is complete *)

Lemma perform_silent c self :
  collection_is_completed self = false → (perform c self).2 = [].
Proof.
  intros Hc. destruct c as [node|node collection|node item_index|node|];
    simpl.
  - unfold add_node. by case_match.
  - unfold add_node_collection. rewrite Hc. simpl. by repeat case_match.
  - unfold mark_test_complete. by repeat case_match.
  - unfold remove_node. by repeat case_match.
  - unfold schedule. by rewrite Hc.
Qed.

Lemma perform_idle c self :
  collection_is_completed self = false → idle self →
  idle (perform c self).1.
Proof.
  intros Hc (Hs & Hr & Hp).
  destruct c as [node|node collection|node item_index|node|]; simpl.
  - unfold add_node. case_match; [done|]. split_and!; [done..|]. simpl.
    intros n p [[= -> ->]|Hin]%dict_elem_of_set; [done|by eapply Hp].
  - unfold add_node_collection. rewrite Hc. simpl.
    destruct (negb (Dict.mem node (node2pending self))); [done|].
    case_match; (split_and!; [done..|]); simpl;
      intros n p [[= -> ->]|Hin]%dict_elem_of_set; done || by eapply Hp.
  - unfold mark_test_complete.
    destruct (Dict.get node (node2pending self)) as [pending|] eqn:Hg;
      [|done].
    rewrite (Hp node pending) by (by apply dict_get_elem_of). done.
  - unfold remove_node.
    destruct (Dict.pop node (node2pending self)) as [[pending rest]|]
      eqn:Hpop; [|done].
    destruct (dict_pop_Some _ _ _ _ Hpop) as (Hg%dict_get_elem_of & Hrest & _).
    rewrite (Hp node pending Hg). split_and!; [done..|]. simpl.
    intros n p Hin%Hrest. by eapply Hp.
  - unfold schedule. by rewrite Hc.
Qed.

Lemma reachable_idle self :
  reachable self → collection_is_completed self = false → idle self.
Proof.
  induction 1 as [n allowed|c self Hreach IH]; intros Hc.
  - split_and!; [done..|]. by intros node pending Hin%elem_of_nil.
  - destruct (collection_is_completed self) eqn:Hbefore.
    + by rewrite (completed_monotone c self Hbefore) in Hc.
    + by apply perform_idle; [|apply IH].
Qed.

Lemma idle_finished self :
  idle self → collection_is_completed self = true →
  tests_finished self = true ∧ has_pending self = false.
Proof.
  intros (Hs & Hr & Hp) Hc. unfold tests_finished, has_pending, Dict.values.
  rewrite Hc, Hr. simpl. split.
  - apply forallb_elem_of. intros p ([n p'] & -> & Hin)%list_elem_of_fmap.
    by rewrite (Hp n p' Hin).
  - apply not_true_is_false. rewrite existsb_exists.
    intros (p & Hin & Hne).
    apply list_elem_of_In, list_elem_of_fmap in Hin as ([n p'] & -> & Hin).
    by rewrite (Hp n p' Hin) in Hne.
Qed.

(** X8.  While collection is not complete no call sends anything, and in
    every reachable state no worker is started, no remainder of a dead
    worker is kept and every pending list is empty. *)
Theorem nothing_before_completion :
  (∀ c self,
     collection_is_completed self = false → (perform c self).2 = []) ∧
  (∀ self,
     reachable self → collection_is_completed self = false →
     _started self = [] ∧ _removed2pending self = [] ∧
     ∀ node pending, (node, pending) ∈ node2pending self → pending = []).
Proof. split; [apply perform_silent|apply reachable_idle]. Qed.

(** Two workers are expected, [wA] joins, reports, and is removed before
    [wB] has joined. *)
Lemma nothing_before_completion_witness :
  _started
    (run [Add_node wA; Add_node_collection wA tests3; Remove_node wA]
       (init 2 [])).1
  = [] ∧
  (perform Schedule
     (run [Add_node wA; Add_node_collection wA tests3; Remove_node wA]
        (init 2 [])).1).2
  = [].
Proof.
  split.
  - apply (proj2 nothing_before_completion); [|reflexivity].
    apply reachable_run. constructor.
  - apply (proj1 nothing_before_completion). reflexivity.
Defined.

(** X9.  The call that completes collection leaves [tests_finished] true
    and [has_pending] false: nothing is pending before the first
    [schedule]. *)
Theorem finished_at_completion c self :
  reachable self →
  collection_is_completed self = false →
  collection_is_completed (perform c self).1 = true →
  tests_finished (perform c self).1 = true ∧
  has_pending (perform c self).1 = false.
Proof.
  intros Hreach Hbefore Hafter. apply idle_finished; [|done].
  apply perform_idle; [done|]. by apply reachable_idle.
Qed.

(** One worker is expected; [wA] has joined and reports. *)
Lemma finished_at_completion_witness :
  tests_finished
    (perform (Add_node_collection wA tests3)
       (run [Add_node wA] (init 1 [])).1).1
  = true.
Proof.
  apply (finished_at_completion (Add_node_collection wA tests3)
           (run [Add_node wA] (init 1 [])).1).
  - apply reachable_run. constructor.
  - reflexivity.
  - reflexivity.
Defined.

(** ** The registered workers *)

Lemma filter_ne_absent {K : Type} `{EqDecision K} (k : K) (l : list K) :
  k ∉ l → filter (λ k', k' ≠ k) l = l.
Proof.
  induction l as [|k1 l IH]; intros Hk; [done|].
  apply not_elem_of_cons in Hk as [Hne Hk].
  rewrite filter_cons, decide_True by (by apply not_eq_sym).
  by rewrite IH.
Qed.

Lemma dict_pop_keys {K V : Type} `{EqDecision K} (k : K) (v : V)
    (d r : list (K * V)) :
  Dict.wf d → Dict.pop k d = Some (v, r) →
  Dict.keys r = filter (λ k', k' ≠ k) (Dict.keys d).
Proof.
  unfold Dict.wf, Dict.keys. revert r.
  induction d as [|[k1 v1] d IH]; intros r Hwf Hpop; simpl in Hpop; [done|].
  csimpl in *. apply NoDup_cons in Hwf as [Hk Hwf]. rewrite filter_cons.
  case_decide as Hk1.
  - subst k1. injection Hpop as <- <-.
    rewrite decide_False by (by intros ?).
    symmetry. by apply filter_ne_absent.
  - destruct (Dict.pop k d) as [[w r']|] eqn:Hpop'; [|done].
    injection Hpop as <- <-. rewrite decide_True by done. csimpl.
    f_equal. by apply IH.
Qed.

Lemma replace_dead_nodes node collection deadnodes self :
  node ∈ nodes self →
  nodes (after (replace_dead node collection deadnodes self)) = nodes self.
Proof.
  intros Hin. induction deadnodes as [|deadnode rest IH]; simpl; [done|].
  repeat case_match; try done. simpl. unfold nodes. simpl.
  by apply dict_keys_set_present.
Qed.

(** X10.  [nodes] lists the workers in the order they joined: [add_node]
    of a new worker appends it, [remove_node] of a registered worker takes
    it out and keeps the order of the others, and no other call changes
    the list. *)
Theorem nodes_follow_joins_and_removals :
  (∀ self node,
     node ∉ nodes self →
     nodes (after (add_node node self)) = nodes self ++ [node]) ∧
  (∀ self node,
     Dict.wf (node2pending self) → node ∈ nodes self →
     nodes (after (remove_node node self))
     = filter (λ other, other ≠ node) (nodes self)) ∧
  (∀ self node collection,
     nodes (after (add_node_collection node collection self)) = nodes self) ∧
  (∀ self node item_index,
     nodes (after (mark_test_complete node item_index self)) = nodes self) ∧
  (∀ self, nodes (after (schedule self)) = nodes self).
Proof.
  split_and!.
  - intros self node Hnode. unfold add_node.
    rewrite (proj2 (dict_mem_false _ _)) by (by apply dict_get_None).
    unfold nodes. simpl. rewrite dict_set_absent by done.
    unfold Dict.keys. by rewrite fmap_app.
  - intros self node Hwf [pending Hget]%dict_get_is_Some.
    destruct (dict_pop_get _ _ _ Hget) as [rest Hpop].
    unfold nodes at 2. rewrite <- (dict_pop_keys _ _ _ _ Hwf Hpop).
    unfold remove_node. rewrite Hpop. cbn zeta.
    repeat case_match; done.
  - intros self node collection. unfold add_node_collection.
    destruct (Dict.mem node (node2pending self)) eqn:Hmem; [|done].
    apply dict_mem_true in Hmem. simpl.
    destruct (negb (collection_is_completed self)).
    + case_match; unfold nodes; simpl; by apply dict_keys_set_present.
    + destruct (_removed2pending self); [done|].
      by apply replace_dead_nodes.
  - intros self node item_index. unfold mark_test_complete.
    destruct (Dict.get node (node2pending self)) eqn:Hget; [|done].
    case_match; [|done]. unfold nodes. simpl.
    apply dict_keys_set_present, dict_get_is_Some. by eexists.
  - intros self. unfold schedule. case_match; [done|].
    unfold nodes. simpl. apply schedule_loop_keys.
Qed.

(** [wA], [wB] and [wC] have joined; [wB] is removed, then joins again. *)
Lemma nodes_follow_joins_and_removals_witness :
  nodes
    (after
       (remove_node wB
          (mkEachScheduling 3 [] [(wA, []); (wB, []); (wC, [])] [] []
             false [])))
  = [wA; wC] ∧
  nodes
    (after
       (add_node wB
          (mkEachScheduling 3 [] [(wA, []); (wC, [])] [] [] false [])))
  = [wA; wC; wB].
Proof.
  destruct nodes_follow_joins_and_removals as (Hjoin & Hremove & _).
  split.
  - rewrite Hremove; [reflexivity|by_evaluation..].
  - rewrite Hjoin; [reflexivity|by_evaluation].
Defined.

(** ** Completed tests *)

(** X11.  [mark_test_complete] of an index the worker's pending list holds
    returns, sends nothing, and replaces the list by one that is one index
    shorter and leaves the other workers' lists alone; for a list without
    repetition, as all lists of a reachable scheduler are, the new list
    holds the other indices and not this one, so that completing the same
    test again raises [ValueError]. *)
Theorem mark_test_complete_removes self node pending item_index :
  Dict.get node (node2pending self) = Some pending →
  item_index ∈ pending →
  ∃ pending',
    mark_test_complete node item_index self
    = ret tt
        (with_node2pending (Dict.set node pending' (node2pending self))
           self) ∧
    Dict.get node
      (node2pending (after (mark_test_complete node item_index self)))
    = Some pending' ∧
    (∀ other, other ≠ node →
       Dict.get other
         (node2pending (after (mark_test_complete node item_index self)))
       = Dict.get other (node2pending self)) ∧
    length pending = S (length pending') ∧
    (NoDup pending →
     (∀ index, index ∈ pending' ↔ index ∈ pending ∧ index ≠ item_index) ∧
     mark_test_complete node item_index
       (after (mark_test_complete node item_index self))
     = raise ValueError (after (mark_test_complete node item_index self))).
Proof.
  intros Hget Hin.
  destruct (list_remove item_index pending) as [pending'|] eqn:Hrm.
  2: { by apply list_remove_None in Hrm. }
  assert (mark_test_complete node item_index self
          = ret tt
              (with_node2pending (Dict.set node pending' (node2pending self))
                 self)) as Hmark.
  { unfold mark_test_complete. by rewrite Hget, Hrm. }
  exists pending'. rewrite Hmark. simpl.
  split_and!; [done|apply dict_get_set_eq| | |].
  - intros other Hne. by apply dict_get_set_ne.
  - destruct (list_remove_Some _ _ _ Hrm) as (l1 & l2 & -> & -> & _).
    rewrite !length_app. simpl. lia.
  - intros Hnodup.
    destruct (list_remove_Some _ _ _ Hrm) as (l1 & l2 & -> & -> & Hl1).
    apply NoDup_app in Hnodup as (_ & Hdisj & [Hl2 _]%NoDup_cons).
    assert (item_index ∉ l1 ++ l2) as Hgone.
    { rewrite elem_of_app. by intros [?|?]. }
    split.
    + intros index. rewrite !elem_of_app, elem_of_cons. split.
      * intros Hindex. split; [destruct Hindex; auto|].
        intros ->. apply Hgone. by apply elem_of_app.
      * intros [[?|[?|?]] ?]; [by left|done|by right].
    + unfold mark_test_complete. simpl. rewrite dict_get_set_eq.
      by rewrite (proj2 (list_remove_None _ _) Hgone).
Qed.

(** [wA] holds [0; 1; 2] and reports test 1 done. *)
Lemma mark_test_complete_removes_witness :
  ∃ pending',
    Dict.get wA
      (node2pending
         (after
            (mark_test_complete wA 1
               (mkEachScheduling 1 [(wA, tests3)] [(wA, [0; 1; 2])] [wA] []
                  true []))))
    = Some pending' ∧
    length [0; 1; 2] = S (length pending').
Proof.
  destruct (mark_test_complete_removes
              (mkEachScheduling 1 [(wA, tests3)] [(wA, [0; 1; 2])] [wA] []
                 true [])
              wA [0; 1; 2] 1) as (pending' & _ & Hget & _ & Hlength & _).
  - reflexivity.
  - by_evaluation.
  - by exists pending'.
Defined.

(** ** What stays as it was built *)

Lemma perform_config c self :
  numnodes (perform c self).1 = numnodes self ∧
  _allowed_workers (perform c self).1 = _allowed_workers self.
Proof.
  destruct c as [node|node collection|node item_index|node|]; simpl.
  - unfold add_node. by case_match.
  - unfold add_node_collection.
    destruct (negb (Dict.mem node (node2pending self))); [done|].
    destruct (negb (collection_is_completed self)).
    { simpl. by case_match. }
    destruct (_removed2pending self) as [|dead removed]; [done|].
    pose proof (replace_dead_frame node collection
                  (Dict.keys (dead :: removed)) self) as Hf.
    cbn zeta in Hf. by destruct Hf as (? & _ & _ & _ & ? & _).
  - unfold mark_test_complete. by repeat case_match.
  - unfold remove_node. by repeat case_match.
  - unfold schedule. by case_match.
Qed.

Lemma perform_is_allowed c self node :
  _is_allowed_worker (perform c self).1 node = _is_allowed_worker self node.
Proof.
  unfold _is_allowed_worker. by rewrite (proj2 (perform_config c self)).
Qed.

(** ** The calls a worker receives *)

Lemma worker_calls_ext self1 self2 node evs :
  _is_allowed_worker self1 node = _is_allowed_worker self2 node →
  worker_calls self1 node evs → worker_calls self2 node evs.
Proof. unfold worker_calls. by intros ->. Qed.

Lemma schedule_node_calls self started node pending pending' started' evs :
  schedule_node self started node pending = Some (pending', started', evs) →
  worker_calls self node evs.
Proof.
  intros Heq. pose proof (schedule_node_cases self started node pending) as Hc.
  rewrite Heq in Hc. unfold worker_calls.
  inversion Hc; subst; eauto 10.
Qed.

Lemma schedule_loop_calls self items started node :
  worker_calls self node
    (sent_to node (calls (schedule_loop self items started))).
Proof.
  revert started.
  induction items as [|[n p] rest IH]; intros started; simpl; [by left|].
  destruct (schedule_node self started n p) as [[[p' st'] evs]|] eqn:Hn;
    simpl; [|by left].
  rewrite sent_to_app.
  pose proof (schedule_node_receiver _ _ _ _ _ _ _ Hn) as Hrecv.
  destruct (decide (n = node)) as [->|Hne].
  - pose proof (schedule_node_marks _ _ _ _ _ _ _ Hn) as (Hst & _ & _).
    destruct (schedule_loop_skips self rest st' node Hst) as [-> _].
    rewrite app_nil_r, sent_to_all by done.
    by eapply schedule_node_calls.
  - rewrite sent_to_none; [apply IH|].
    intros e He. rewrite (Hrecv e He). congruence.
Qed.

Lemma perform_calls c self node :
  worker_calls self node (sent_to node (perform c self).2).
Proof.
  destruct (decide (c = Schedule)) as [->|Hc].
  - simpl. unfold schedule. case_match; simpl; [by left|].
    apply schedule_loop_calls.
  - destruct (perform_not_schedule c self Hc) as [_ He].
    rewrite sent_to_none; [by left|].
    intros e Hin. by rewrite (He e Hin).
Qed.

Lemma run_calls cs self node :
  worker_calls self node (sent_to node (run cs self).2).
Proof.
  revert self. induction cs as [|c cs IH]; intros self; simpl; [by left|].
  pose proof (perform_calls c self node) as Hfirst.
  pose proof (perform_runs c self node) as (_ & _ & Hmark).
  pose proof (perform_is_allowed c self node) as Hallowed.
  destruct (perform c self) as [self1 evs1] eqn:Hp.
  pose proof (IH self1) as Hrest.
  pose proof (run_runs cs self1 node) as [_ Hskip].
  destruct (run cs self1) as [self2 evs2] eqn:Hr. cbn [fst snd] in *.
  rewrite sent_to_app.
  destruct (sent_to node evs1) as [|e evs] eqn:Hs.
  - simpl. by apply (worker_calls_ext self1).
  - rewrite Hskip, app_nil_r; [done|]. by apply Hmark.
Qed.

(** X12.  Over any run of a new scheduler the calls made on one worker are
    none, or [shutdown] alone for a worker the allow-list excludes, or, for
    an allowed worker, [send_runtest_all] then [shutdown], or one
    [send_runtest_some] with a non-empty list.  An excluded worker is in
    particular never ordered to run a test. *)
Theorem worker_call_sequences :
  (∀ specs allowed cs node,
     worker_calls (init specs allowed) node
       (sent_to node (run cs (init specs allowed)).2)) ∧
  (∀ specs allowed cs node,
     _is_allowed_worker (init specs allowed) node = false →
     runs_sent_to node (run cs (init specs allowed)).2 = 0%nat).
Proof.
  split; [intros; apply run_calls|].
  intros specs allowed cs node Hexcluded. unfold runs_sent_to.
  destruct (run_calls cs (init specs allowed) node)
    as [->|[[_ ->]|[Hallowed _]]]; [done|done|congruence].
Qed.

(** Only [gw0] is allowed; [wB], whose id is [gw1], joins and reports with
    [wA]. *)
Lemma worker_call_sequences_witness :
  runs_sent_to wB
    (run [Add_node wA; Add_node wB; Add_node_collection wA tests3;
          Add_node_collection wB tests3; Schedule]
       (init 2 ["gw0"%string])).2
  = 0%nat.
Proof.
  apply (proj2 worker_call_sequences). reflexivity.
Defined.

(** ** Indices are never negative *)

Lemma replace_dead_nonneg node collection deadnodes self :
  pending_nonneg self →
  pending_nonneg (after (replace_dead node collection deadnodes self)).
Proof.
  intros Hinv.
  induction deadnodes as [|deadnode rest IH]; simpl; [done|].
  case_decide; [|apply IH].
  destruct (Dict.get deadnode (node2collection self)); [|done].
  case_decide; [done|].
  destruct (Dict.pop deadnode (_removed2pending self)) as [[pending removed]|]
    eqn:Hpop; [|done].
  destruct (dict_pop_Some _ _ _ _ Hpop) as (Hg%dict_get_elem_of & Hrem & _).
  destruct Hinv as [Hp Hr]. split; simpl.
  - intros n p i [[= -> ->]|Hin]%dict_elem_of_set; [by eapply Hr|by eapply Hp].
  - intros n p i Hin%Hrem. by eapply Hr.
Qed.

Lemma perform_nonneg c self :
  pending_nonneg self → pending_nonneg (perform c self).1.
Proof.
  intros Hinv. pose proof Hinv as [Hp Hr].
  destruct c as [node|node collection|node item_index|node|]; simpl.
  - unfold add_node. case_match; [done|]. split; [|done]. simpl.
    intros n p i [[= -> ->]|Hin]%dict_elem_of_set;
      [by intros ?%elem_of_nil|by eapply Hp].
  - unfold add_node_collection.
    destruct (negb (Dict.mem node (node2pending self))); [done|].
    destruct (negb (collection_is_completed self)).
    + simpl. case_match; (split; [|done]); simpl;
        intros n p i [[= -> ->]|Hin]%dict_elem_of_set;
        (by intros ?%elem_of_nil) || by eapply Hp.
    + destruct (_removed2pending self) as [|dead removed] eqn:Hremoved;
        [done|].
      rewrite <- Hremoved. by apply replace_dead_nonneg.
  - unfold mark_test_complete.
    destruct (Dict.get node (node2pending self)) as [pending|] eqn:Hg;
      [|done].
    destruct (list_remove item_index pending) as [pending'|] eqn:Hrm;
      [|done].
    split; [|done]. simpl.
    intros n p i [[= -> ->]|Hin]%dict_elem_of_set; [|by eapply Hp].
    destruct (list_remove_Some _ _ _ Hrm) as (l1 & l2 & -> & -> & _).
    intros Hi. apply (Hp node _ i (dict_get_elem_of _ _ _ Hg)).
    rewrite elem_of_app in Hi. rewrite elem_of_app, elem_of_cons.
    destruct Hi; auto.
  - unfold remove_node.
    destruct (Dict.pop node (node2pending self)) as [[pending rest]|]
      eqn:Hpop; [|done].
    destruct (dict_pop_Some _ _ _ _ Hpop) as (Hg%dict_get_elem_of & Hrest & _).
    assert (pending_nonneg (with_node2pending rest self)) as Hinv'.
    { split; [|done]. simpl. intros n p i Hin%Hrest. by eapply Hp. }
    destruct pending as [|index pending']; [done|]. simpl.
    destruct (Dict.get node (node2collection self)); [|done].
    destruct (getitem _ index); [|done].
    destruct pending' as [|index' remainder] eqn:Hpending; [done|].
    rewrite <- Hpending in *.
    split; [by destruct Hinv'|]. simpl.
    intros n p i [[= -> ->]|Hin]%dict_elem_of_set; [|by eapply Hr].
    intros Hi. apply (Hp node _ i Hg). by right.
  - unfold schedule. case_match; [done|]. split; [|done]. simpl.
    intros n p i [Hin|[k ->]]%schedule_loop_entries; [by eapply Hp|].
    intros Hi%elem_of_range. lia.
Qed.

Lemma reachable_nonneg self : reachable self → pending_nonneg self.
Proof.
  induction 1 as [n allowed|c self Hreach IH].
  - split; simpl; by intros node pending index Hin%elem_of_nil.
  - by apply perform_nonneg.
Qed.

(** X13.  No call puts a negative index into a pending list or into a
    dead worker's remainder, so a reachable scheduler holds none. *)
Theorem pending_indices_nonnegative :
  (∀ c self, pending_nonneg self → pending_nonneg (perform c self).1) ∧
  (∀ self, reachable self → pending_nonneg self).
Proof. split; [apply perform_nonneg|apply reachable_nonneg]. Qed.

(** [wA] is scheduled with three tests and dies. *)
Lemma pending_indices_nonnegative_witness :
  pending_nonneg
    (run [Add_node wA; Add_node_collection wA tests3; Schedule;
          Remove_node wA] (init 1 [])).1.
Proof.
  apply (proj2 pending_indices_nonnegative). apply reachable_run.
  constructor.
Defined.

(** X14.  Where the pending indices are within the recorded collections
    and not negative, [remove_node] of a worker with indices pending
    returns the item its collection holds at the first of them, counted
    from the start of the collection; it raises nothing. *)
Theorem remove_node_returns self node head remainder :
  indices_in_range self →
  pending_nonneg self →
  Dict.get node (node2pending self) = Some (head :: remainder) →
  ∃ collection crashitem,
    Dict.get node (node2collection self) = Some collection ∧
    collection !! Z.to_nat head = Some crashitem ∧
    value (remove_node node self) = Return (Some crashitem).
Proof.
  intros Hrange [Hnonneg _] Hget.
  destruct (Hrange node (head :: remainder) head Hget) as (collection & Hc & Hlt);
    [left|].
  assert (0 ≤ head) as Hge.
  { apply (Hnonneg node (head :: remainder)); [|left].
    by apply dict_get_elem_of. }
  destruct (lookup_lt_is_Some_2 collection (Z.to_nat head)) as [item Hitem];
    [lia|].
  exists collection, item. split_and!; [done..|].
  destruct (dict_pop_get _ _ _ Hget) as [rest Hpop].
  unfold remove_node. rewrite Hpop. simpl. rewrite Hc.
  unfold getitem. rewrite decide_True by done. rewrite Hitem.
  by destruct remainder.
Qed.

(** [wA] dies with the indices [3; 7; 9] of ten tests outstanding. *)
Lemma remove_node_returns_witness :
  ∃ collection crashitem,
    Dict.get wA [(wA, tests10)] = Some collection ∧
    collection !! Z.to_nat 3 = Some crashitem ∧
    value
      (remove_node wA
         (mkEachScheduling 1 [(wA, tests10)] [(wA, [3; 7; 9])] [wA] [] true
            []))
    = Return (Some crashitem).
Proof.
  apply (remove_node_returns
           (mkEachScheduling 1 [(wA, tests10)] [(wA, [3; 7; 9])] [wA] []
              true [])
           wA 3 [7; 9]).
  - intros node pending index Hget Hindex. simpl in Hget.
    case_decide; [|discriminate Hget]. injection Hget as <-.
    exists tests10. subst node. split; [reflexivity|].
    repeat (apply elem_of_cons in Hindex as [->|Hindex]; [by vm_compute|]).
    by apply elem_of_nil in Hindex.
  - split; simpl; intros node pending index Hin Hindex.
    + apply list_elem_of_singleton in Hin. injection Hin as -> ->.
      repeat (apply elem_of_cons in Hindex as [->|Hindex]; [lia|]).
      by apply elem_of_nil in Hindex.
    + by apply elem_of_nil in Hin.
  - reflexivity.
Defined.

(** ** The recorded collections *)

Lemma perform_collections_kept c self node :
  is_Some (Dict.get node (node2collection self)) →
  is_Some (Dict.get node (node2collection (perform c self).1)).
Proof.
  intros Hnode.
  destruct c as [n|n collection|n item_index|n|]; simpl.
  - unfold add_node. by case_match.
  - destruct (collection_is_completed self) eqn:Hc.
    { by rewrite late_report_not_recorded. }
    unfold add_node_collection. rewrite Hc.
    destruct (negb (Dict.mem n (node2pending self))); [done|].
    assert (is_Some (Dict.get node
                       (Dict.set n collection (node2collection self)))).
    { destruct (decide (n = node)) as [->|Hne].
      - rewrite dict_get_set_eq. by eexists.
      - by rewrite dict_get_set_ne. }
    simpl. by case_match.
  - unfold mark_test_complete. by repeat case_match.
  - unfold remove_node. by repeat case_match.
  - unfold schedule. by case_match.
Qed.

Lemma perform_completed_count c self :
  (collection_is_completed self = true →
   (numnodes self ≤ length (node2collection self))%nat) →
  collection_is_completed (perform c self).1 = true →
  (numnodes (perform c self).1
   ≤ length (node2collection (perform c self).1))%nat.
Proof.
  intros Hinv.
  destruct c as [n|n collection|n item_index|n|]; simpl.
  - unfold add_node. by case_match.
  - destruct (collection_is_completed self) eqn:Hc.
    { intros _. rewrite late_report_not_recorded by done.
      pose proof (perform_config (Add_node_collection n collection) self)
        as [Hnum _].
      simpl in Hnum. rewrite Hnum. by apply Hinv. }
    unfold add_node_collection. rewrite Hc.
    destruct (negb (Dict.mem n (node2pending self)));
      [simpl; by rewrite Hc|].
    simpl.
    destruct (numnodes self <=? _)%nat eqn:Hn; simpl; [|by rewrite Hc].
    intros _. by apply Nat.leb_le.
  - unfold mark_test_complete. by repeat case_match.
  - unfold remove_node. by repeat case_match.
  - unfold schedule. by case_match.
Qed.

Lemma reachable_completed_count self :
  reachable self → collection_is_completed self = true →
  (numnodes self ≤ length (node2collection self))%nat.
Proof.
  induction 1 as [n allowed|c self Hreach IH]; [done|].
  by apply perform_completed_count.
Qed.

(** X15.  No call takes a worker's collection out of [node2collection],
    and in every reachable state with collection complete
    [node2collection] holds at least [numnodes] collections. *)
Theorem collections_kept_and_counted :
  (∀ c self node,
     is_Some (Dict.get node (node2collection self)) →
     is_Some (Dict.get node (node2collection (perform c self).1))) ∧
  (∀ self,
     reachable self → collection_is_completed self = true →
     (numnodes self ≤ length (node2collection self))%nat).
Proof.
  split; [apply perform_collections_kept|apply reachable_completed_count].
Qed.

(** [wA] reported, was scheduled and died. *)
Lemma collections_kept_and_counted_witness :
  is_Some
    (Dict.get wA
       (node2collection
          (perform (Remove_node wA)
             (mkEachScheduling 1 [(wA, tests3)] [(wA, [0; 1; 2])] [wA] []
                true [])).1)).
Proof.
  apply (proj1 collections_kept_and_counted). by eexists.
Defined.

(** ** A run without deaths *)

Lemma run_app cs1 cs2 self :
  run (cs1 ++ cs2) self
  = ((run cs2 (run cs1 self).1).1,
     (run cs1 self).2 ++ (run cs2 (run cs1 self).1).2).
Proof.
  revert self. induction cs1 as [|c cs1 IH]; intros self; simpl.
  - by destruct (run cs2 self).
  - destruct (perform c self) as [self1 evs1]. rewrite IH.
    destruct (run cs1 self1) as [self2 evs2]. simpl.
    destruct (run cs2 self2) as [self3 evs3]. simpl.
    by rewrite app_assoc.
Qed.

Lemma dict_set_same {K V : Type} `{EqDecision K} (k : K) (v : V)
    (d : list (K * V)) :
  Dict.get k d = Some v → Dict.set k v d = d.
Proof.
  induction d as [|[k1 v1] d IH]; simpl; [done|].
  case_decide; intros Hg; [by simplify_eq|]. by rewrite IH.
Qed.

Lemma dict_get_fmap {K V : Type} `{EqDecision K} (f : K → V) (k : K)
    (l : list K) :
  k ∈ l → Dict.get k ((λ k', (k', f k')) <$> l) = Some (f k).
Proof.
  induction l as [|k1 l IH]; csimpl; [by intros ?%elem_of_nil|].
  intros Hin. case_decide as Hk; [by subst|].
  apply elem_of_cons in Hin as [->|Hin]; [done|auto].
Qed.

Lemma run_joins workers self :
  NoDup workers →
  (∀ node, node ∈ workers → node ∉ nodes self) →
  run (Add_node <$> workers) self
  = (with_node2pending
       (node2pending self ++ ((λ node, (node, [])) <$> workers)) self,
     []).
Proof.
  revert self.
  induction workers as [|node workers IH]; intros self Hnodup Hnew; csimpl.
  - rewrite app_nil_r. by destruct self.
  - apply NoDup_cons in Hnodup as [Hnode Hnodup].
    pose proof (Hnew node ltac:(left)) as Habsent.
    unfold add_node.
    rewrite (proj2 (dict_mem_false _ _)) by (by apply dict_get_None).
    simpl. rewrite dict_set_absent by done.
    rewrite IH; [|done|].
    + simpl. by rewrite <- app_assoc.
    + intros other Hother. unfold nodes, Dict.keys. simpl.
      rewrite fmap_app, elem_of_app. csimpl.
      intros [Hin|Hin%list_elem_of_singleton].
      * by apply (Hnew other); [right|].
      * by subst.
Qed.

Section reports.
Variables (collection_of : WorkerController → list string).
Variables (allowed : list string).

Lemma run_reports todo reported :
  NoDup (reported ++ todo) →
  todo ≠ [] →
  run ((λ node, Add_node_collection node (collection_of node)) <$> todo)
    (mkEachScheduling (length (reported ++ todo))
       ((λ node, (node, collection_of node)) <$> reported)
       ((λ node, (node, [])) <$> reported ++ todo)
       [] [] false allowed)
  = (mkEachScheduling (length (reported ++ todo))
       ((λ node, (node, collection_of node)) <$> reported ++ todo)
       ((λ node, (node, [])) <$> reported ++ todo)
       [] [] true allowed,
     []).
Proof.
  revert reported.
  induction todo as [|node todo IH]; intros reported Hnodup Hne; [done|].
  csimpl. unfold add_node_collection. simpl.
  assert (node ∈ reported ++ node :: todo) as Hin
    by (apply elem_of_app; right; left).
  assert (node ∉ reported) as Hnew.
  { apply NoDup_app in Hnodup as (_ & Hdisj & _).
    intros Hr. apply (Hdisj node Hr). left. }
  rewrite (proj2 (dict_mem_true _ _)).
  2: { unfold Dict.keys. rewrite <- list_fmap_compose.
       by rewrite (list_fmap_ext _ id), list_fmap_id. }
  simpl. rewrite (dict_set_same node []) by (by apply (dict_get_fmap (λ _, []))).
  rewrite dict_set_absent.
  2: { unfold Dict.keys. rewrite <- list_fmap_compose.
       by rewrite (list_fmap_ext _ id), list_fmap_id. }
  assert (((λ n, (n, collection_of n)) <$> reported)
          ++ [(node, collection_of node)]
          = (λ n, (n, collection_of n)) <$> (reported ++ [node])) as ->
    by (by rewrite fmap_app).
  rewrite length_fmap.
  destruct todo as [|next todo].
  - rewrite (proj2 (Nat.leb_le _ _)) by done. done.
  - rewrite (proj2 (Nat.leb_gt _ _)) by (rewrite !length_app; simpl; lia).
    rewrite (cons_middle node reported (next :: todo)), app_assoc.
    unfold ret, with_node2pending, with_node2collection.
    cbn [after numnodes node2collection node2pending _started
         _removed2pending collection_is_completed _allowed_workers].
    rewrite IH; [done| |done].
    by rewrite <- app_assoc.
Qed.
End reports.

Lemma schedule_loop_fresh self collection_of workers started :
  NoDup workers →
  (∀ node, node ∈ workers → node ∉ started) →
  (∀ node, node ∈ workers →
     _is_allowed_worker self node = true ∧
     Dict.get node (node2collection self) = Some (collection_of node)) →
  schedule_loop self ((λ node, (node, [])) <$> workers) started
  = mkScheduled
      ((λ node, (node, range (length (collection_of node)))) <$> workers)
      (started ++ workers)
      (workers ≫= λ node, [send_runtest_all node; shutdown node])
      None.
Proof.
  revert started.
  induction workers as [|node workers IH]; intros started Hnodup Hnew Hok;
    csimpl.
  - by rewrite app_nil_r.
  - apply NoDup_cons in Hnodup as [Hnode Hnodup].
    destruct (Hok node) as [Hallowed Hcollection]; [left|].
    unfold schedule_node.
    rewrite decide_False by (apply Hnew; left).
    rewrite Hallowed, Hcollection. simpl.
    rewrite IH; [|done| |].
    + unfold handled. simpl. by rewrite <- app_assoc.
    + intros other Hother. rewrite elem_of_app, list_elem_of_singleton.
      intros [Hin| ->]; [|done]. by apply (Hnew other); [right|].
    + intros other Hother. apply Hok. by right.
Qed.

Lemma run_join_report_schedule workers collection_of allowed :
  NoDup workers →
  workers ≠ [] →
  (∀ node, node ∈ workers →
     _is_allowed_worker (init (length workers) allowed) node = true) →
  run (join_report_schedule workers collection_of)
    (init (length workers) allowed)
  = (mkEachScheduling (length workers)
       ((λ node, (node, collection_of node)) <$> workers)
       ((λ node, (node, range (length (collection_of node)))) <$> workers)
       workers [] true allowed,
     workers ≫= λ node, [send_runtest_all node; shutdown node]).
Proof.
  intros Hnodup Hne Hallowed. unfold join_report_schedule.
  rewrite !run_app.
  rewrite run_joins; [|done|by intros node _ ?%elem_of_nil].
  unfold init, with_node2pending. simpl.
  pose proof (run_reports collection_of allowed workers [] Hnodup Hne)
    as Hreports.
  simpl in Hreports. rewrite Hreports. simpl.
  unfold schedule. simpl.
  rewrite (schedule_loop_fresh _ collection_of); [|done| |].
  - simpl. by rewrite app_nil_r.
  - intros node _. apply not_elem_of_nil.
  - intros node Hnode. split; [by apply Hallowed|].
    simpl. by apply (dict_get_fmap collection_of).
Qed.

(** X16.  When the workers a scheduler expects join, every one of them
    reports its collection and [schedule] is called, with no worker
    excluded by the allow-list: collection is complete, every worker's
    pending list is the whole range of its own collection, every worker
    is started, and the calls made are [send_runtest_all] then [shutdown]
    on each worker, in the order the workers joined. *)
Theorem every_worker_runs_everything workers collection_of allowed :
  NoDup workers →
  workers ≠ [] →
  (∀ node, node ∈ workers →
     _is_allowed_worker (init (length workers) allowed) node = true) →
  run (join_report_schedule workers collection_of)
    (init (length workers) allowed)
  = (mkEachScheduling (length workers)
       ((λ node, (node, collection_of node)) <$> workers)
       ((λ node, (node, range (length (collection_of node)))) <$> workers)
       workers [] true allowed,
     workers ≫= λ node, [send_runtest_all node; shutdown node]).
Proof. apply run_join_report_schedule. Qed.

(** [wA], [wB] and [wC], with three, ten and no tests. *)
Lemma every_worker_runs_everything_witness :
  (run
     (join_report_schedule [wA; wB; wC]
        (λ node,
           if decide (node = wA) then tests3
           else if decide (node = wB) then tests10 else []))
     (init 3 [])).2
  = [send_runtest_all wA; shutdown wA; send_runtest_all wB; shutdown wB;
     send_runtest_all wC; shutdown wC].
Proof.
  rewrite (every_worker_runs_everything [wA; wB; wC] _ []).
  - reflexivity.
  - by_evaluation.
  - discriminate.
  - intros node _. reflexivity.
Defined.

(** ** Completing every test *)

Lemma dict_set_middle {K V : Type} `{EqDecision K} (k : K) (v w : V)
    (d1 d2 : list (K * V)) :
  k ∉ Dict.keys d1 →
  Dict.set k w (d1 ++ (k, v) :: d2) = d1 ++ (k, w) :: d2.
Proof.
  unfold Dict.keys.
  induction d1 as [|[k1 v1] d1 IH]; csimpl; intros Hk.
  - by rewrite decide_True.
  - apply not_elem_of_cons in Hk as [Hne Hk].
    rewrite decide_False by (by apply not_eq_sym). by rewrite IH.
Qed.

Lemma dict_get_middle {K V : Type} `{EqDecision K} (k : K) (v : V)
    (d1 d2 : list (K * V)) :
  k ∉ Dict.keys d1 → Dict.get k (d1 ++ (k, v) :: d2) = Some v.
Proof.
  unfold Dict.keys.
  induction d1 as [|[k1 v1] d1 IH]; csimpl; intros Hk.
  - by rewrite decide_True.
  - apply not_elem_of_cons in Hk as [Hne Hk].
    rewrite decide_False by (by apply not_eq_sym). by rewrite IH.
Qed.

(** Completing the pending indices in the order of the list empties it. *)
Lemma run_marks node pending self before behind :
  node ∉ Dict.keys before →
  node2pending self = before ++ (node, pending) :: behind →
  run (Mark_test_complete node <$> pending) self
  = (with_node2pending (before ++ (node, []) :: behind) self, []).
Proof.
  revert self. induction pending as [|index pending IH];
    intros self Hnode Hself; csimpl.
  - rewrite <- Hself. by destruct self.
  - unfold mark_test_complete. rewrite Hself.
    rewrite dict_get_middle by done. simpl.
    rewrite decide_True by done. simpl.
    rewrite dict_set_middle by done.
    rewrite (IH _ Hnode) by reflexivity. by destruct self.
Qed.

Lemma run_complete_everything collection_of workers done self :
  NoDup (done ++ workers) →
  node2pending self
  = ((λ node, (node, [])) <$> done)
    ++ ((λ node, (node, range (length (collection_of node)))) <$> workers) →
  run (complete_everything workers collection_of) self
  = (with_node2pending ((λ node, (node, [])) <$> done ++ workers) self, []).
Proof.
  unfold complete_everything. revert done self.
  induction workers as [|node workers IH]; intros done self Hnodup Hself;
    csimpl.
  - rewrite app_nil_r in *. rewrite <- Hself. by destruct self.
  - rewrite run_app.
    assert (node ∉ done) as Hnode.
    { apply NoDup_app in Hnodup as (_ & Hdisj & _).
      intros Hin. apply (Hdisj node Hin). left. }
    assert (node ∉ Dict.keys ((λ n, (n, @nil Z)) <$> done)) as Hkey.
    { unfold Dict.keys. rewrite <- list_fmap_compose.
      by rewrite (list_fmap_ext _ id), list_fmap_id. }
    rewrite (run_marks node _ self _ _ Hkey Hself).
    simpl. rewrite (IH (done ++ [node])).
    + simpl. rewrite <- app_assoc. by destruct self.
    + by rewrite <- app_assoc.
    + simpl. rewrite fmap_app, <- app_assoc. done.
Qed.

(** X17.  When the workers a scheduler expects have joined, reported and
    been scheduled, none excluded, and every worker then reports every
    test of its collection done, in the order of the indices: every
    pending list is empty, [tests_finished] is true, [has_pending] is
    false, and the completions have sent nothing. *)
Theorem completing_everything_finishes workers collection_of allowed :
  NoDup workers →
  workers ≠ [] →
  (∀ node, node ∈ workers →
     _is_allowed_worker (init (length workers) allowed) node = true) →
  run (join_report_schedule workers collection_of
       ++ complete_everything workers collection_of)
    (init (length workers) allowed)
  = (mkEachScheduling (length workers)
       ((λ node, (node, collection_of node)) <$> workers)
       ((λ node, (node, [])) <$> workers)
       workers [] true allowed,
     workers ≫= λ node, [send_runtest_all node; shutdown node]) ∧
  tests_finished
    (run (join_report_schedule workers collection_of
          ++ complete_everything workers collection_of)
       (init (length workers) allowed)).1 = true ∧
  has_pending
    (run (join_report_schedule workers collection_of
          ++ complete_everything workers collection_of)
       (init (length workers) allowed)).1 = false.
Proof.
  intros Hnodup Hne Hallowed.
  assert (run (join_report_schedule workers collection_of
               ++ complete_everything workers collection_of)
            (init (length workers) allowed)
          = (mkEachScheduling (length workers)
               ((λ node, (node, collection_of node)) <$> workers)
               ((λ node, (node, [])) <$> workers)
               workers [] true allowed,
             workers ≫= λ node, [send_runtest_all node; shutdown node]))
    as Hrun.
  { rewrite run_app, run_join_report_schedule by done.
    cbn [fst snd].
    rewrite (run_complete_everything collection_of workers []); [|done..].
    simpl. by rewrite app_nil_r. }
  rewrite Hrun. split; [done|]. cbn [fst].
  unfold tests_finished, has_pending, Dict.values. simpl.
  rewrite <- list_fmap_compose. split.
  - apply forallb_elem_of. by intros p (node & -> & _)%list_elem_of_fmap.
  - apply not_true_is_false. rewrite existsb_exists.
    intros (p & Hin & Hp).
    by apply list_elem_of_In, list_elem_of_fmap in Hin as (node & -> & _).
Qed.

(** [wA] and [wB], with three tests each. *)
Lemma completing_everything_finishes_witness :
  tests_finished
    (run (join_report_schedule [wA; wB] (λ _, tests3)
          ++ complete_everything [wA; wB] (λ _, tests3))
       (init (length [wA; wB]) [])).1
  = true.
Proof.
  destruct (completing_everything_finishes [wA; wB] (λ _, tests3) [])
    as (_ & Hfinished & _).
  - by_evaluation.
  - discriminate.
  - intros node _. reflexivity.
  - exact Hfinished.
Defined.

(** ** Orphaned work *)

Lemma dict_set_not_nil {K V : Type} `{EqDecision K} (k : K) (v : V)
    (d : list (K * V)) : Dict.set k v d ≠ [].
Proof. destruct d as [|[k1 v1] d]; simpl; [done|]. by case_decide. Qed.

(** X18.  While a dead worker's remainder waits in [_removed2pending],
    [tests_finished] is false, and only a report ([add_node_collection])
    can take the remainder away: after any other call a remainder still
    waits and [tests_finished] is still false. *)
Theorem orphaned_work_blocks_finish c self :
  _removed2pending self ≠ [] →
  (∀ node collection, c ≠ Add_node_collection node collection) →
  tests_finished self = false ∧
  _removed2pending (perform c self).1 ≠ [] ∧
  tests_finished (perform c self).1 = false.
Proof.
  intros Hwaiting Hc.
  assert (∀ s, _removed2pending s ≠ [] → tests_finished s = false) as Hfalse.
  { intros s Hs. unfold tests_finished.
    destruct (negb (collection_is_completed s)); [done|].
    by destruct (_removed2pending s). }
  split; [by apply Hfalse|].
  assert (_removed2pending (perform c self).1 ≠ []) as Hstill;
    [|by split; [|apply Hfalse]].
  destruct c as [node|node collection|node item_index|node|]; simpl.
  - unfold add_node. by case_match.
  - by destruct (Hc node collection).
  - unfold mark_test_complete. by repeat case_match.
  - unfold remove_node. repeat case_match; try done. simpl.
    apply dict_set_not_nil.
  - unfold schedule. by case_match.
Qed.

(** [wA] died with [1; 2] left; [wB] finishes its last test. *)
Lemma orphaned_work_blocks_finish_witness :
  tests_finished
    (perform (Mark_test_complete wB 2)
       (mkEachScheduling 2 [(wA, tests3); (wB, tests3)] [(wB, [2])]
          [wA; wB] [(wA, [1; 2])] true [])).1
  = false.
Proof.
  apply (orphaned_work_blocks_finish (Mark_test_complete wB 2)
           (mkEachScheduling 2 [(wA, tests3); (wB, tests3)] [(wB, [2])]
              [wA; wB] [(wA, [1; 2])] true [])).
  - discriminate.
  - discriminate.
Defined.

(** ** Replacing a dead worker *)

Lemma schedule_loop_app_started self items1 items2 started :
  (∀ node, node ∈ Dict.keys items1 → node ∈ started) →
  schedule_loop self (items1 ++ items2) started
  = mkScheduled
      (items1 ++ entries (schedule_loop self items2 started))
      (started_after (schedule_loop self items2 started))
      (calls (schedule_loop self items2 started))
      (raised (schedule_loop self items2 started)).
Proof.
  unfold Dict.keys.
  induction items1 as [|[node pending] items1 IH]; csimpl; intros Hall.
  - by destruct (schedule_loop self items2 started).
  - rewrite schedule_node_started by (apply Hall; left).
    rewrite IH by (intros n Hn; apply Hall; by right). done.
Qed.

(** [dead] dies with a remainder, [node] joins and reports the collection
    of [dead]: [node] stands last in [node2pending], with the remainder. *)
Lemma run_hand_off self dead node head remainder collection crashitem :
  collection_is_completed self = true →
  _removed2pending self = [] →
  Dict.get dead (node2pending self) = Some (head :: remainder) →
  remainder ≠ [] →
  Dict.get dead (node2collection self) = Some collection →
  getitem collection head = Some crashitem →
  node ∉ nodes self →
  gateway_spec (gateway dead) = gateway_spec (gateway node) →
  ∃ rest,
    Dict.pop dead (node2pending self) = Some (head :: remainder, rest) ∧
    remove_node dead self
    = ret (Some crashitem)
        (with_removed2pending [(dead, remainder)]
           (with_node2pending rest self)) ∧
    run [Remove_node dead; Add_node node;
         Add_node_collection node collection] self
    = (with_node2pending (rest ++ [(node, remainder)]) self, []).
Proof.
  intros Hc Hnone Hdead Hrem Hcoll Hitem Hnew Hspec.
  destruct (dict_pop_get _ _ _ Hdead) as [rest Hpop].
  destruct (dict_pop_Some _ _ _ _ Hpop) as (_ & Hsub & _ & _).
  assert (remove_node dead self
          = ret (Some crashitem)
              (with_removed2pending [(dead, remainder)]
                 (with_node2pending rest self))) as Hremove.
  { unfold remove_node. rewrite Hpop. simpl. rewrite Hcoll, Hitem.
    destruct remainder; [done|]. by rewrite Hnone. }
  assert (node ∉ Dict.keys rest) as Hnode.
  { intros Hin. apply Hnew. unfold nodes, Dict.keys in *.
    apply list_elem_of_fmap in Hin as ([n p] & -> & Hin).
    apply (dict_elem_of_keys _ _ _ (Hsub _ Hin)). }
  exists rest. split_and!; [done..|].
  unfold run, perform. rewrite Hremove. simpl.
  unfold add_node. simpl.
  rewrite (proj2 (dict_mem_false _ _)) by (by apply dict_get_None).
  simpl. rewrite dict_set_absent by done.
  unfold add_node_collection. simpl.
  rewrite (proj2 (dict_mem_true _ _)).
  2: { unfold Dict.keys. rewrite fmap_app, elem_of_app. right. left. }
  rewrite Hc. simpl. rewrite decide_True by done.
  rewrite Hcoll. rewrite decide_False by (by intros ?).
  rewrite decide_True by done. simpl.
  rewrite (dict_set_middle node [] remainder rest []) by done.
  rewrite <- Hnone. by destruct self.
Qed.

(** [schedule] when the last registered worker alone is not started. *)
Lemma schedule_last self rest node pending :
  collection_is_completed self = true →
  node2pending self = rest ++ [(node, pending)] →
  (∀ other, other ∈ Dict.keys rest → other ∈ _started self) →
  node ∉ _started self →
  pending ≠ [] ∨ _is_allowed_worker self node = false →
  schedule self
  = mkOutcome (Return tt) (with_started (_started self ++ [node]) self)
      (if _is_allowed_worker self node
       then [send_runtest_some node pending] else [shutdown node]).
Proof.
  intros Hc Hself Hstarted Hnode Hcase. unfold schedule.
  rewrite Hc, Hself. simpl.
  rewrite schedule_loop_app_started by done. simpl.
  unfold schedule_node. rewrite decide_False by done.
  destruct (_is_allowed_worker self node) eqn:Hallowed; simpl.
  - destruct Hcase as [Hpending|?]; [|done].
    destruct pending as [|index pending]; [done|]. simpl.
    rewrite <- Hself. by destruct self.
  - rewrite <- Hself. by destruct self.
Qed.

(** X19.  Crash recovery from end to end.  Every registered worker is
    started and no remainder waits; [dead] dies with [head] and a
    non-empty [remainder] pending; [node], a new allowed worker of the
    same spec, joins and reports the collection of [dead]; [schedule] is
    called.  Then [remove_node] has returned the item at [head], the only
    call made is [send_runtest_some] on [node] with exactly [remainder],
    [node] owes exactly [remainder] and is started, and no remainder waits
    any more. *)
Theorem replacement_runs_the_remainder
    self dead node head remainder collection crashitem :
  collection_is_completed self = true →
  _removed2pending self = [] →
  (∀ other, other ∈ nodes self → other ∈ _started self) →
  Dict.get dead (node2pending self) = Some (head :: remainder) →
  remainder ≠ [] →
  Dict.get dead (node2collection self) = Some collection →
  getitem collection head = Some crashitem →
  node ∉ nodes self →
  node ∉ _started self →
  _is_allowed_worker self node = true →
  gateway_spec (gateway dead) = gateway_spec (gateway node) →
  value (remove_node dead self) = Return (Some crashitem) ∧
  (run (replace_worker dead node collection) self).2
  = [send_runtest_some node remainder] ∧
  Dict.get node
    (node2pending (run (replace_worker dead node collection) self).1)
  = Some remainder ∧
  _removed2pending (run (replace_worker dead node collection) self).1 = [] ∧
  _started (run (replace_worker dead node collection) self).1
  = _started self ++ [node].
Proof.
  intros Hc Hnone Hstarted Hdead Hrem Hcoll Hitem Hnew Hnotstarted
    Hallowed Hspec.
  destruct (run_hand_off self dead node head remainder collection crashitem)
    as (rest & Hpop & Hremove & Hrun); [done..|].
  destruct (dict_pop_Some _ _ _ _ Hpop) as (_ & Hsub & _ & Hrest).
  split; [by rewrite Hremove|].
  change (replace_worker dead node collection)
    with ([Remove_node dead; Add_node node;
           Add_node_collection node collection] ++ [Schedule]).
  rewrite run_app, Hrun. simpl.
  rewrite (schedule_last _ rest node remainder); [|done..| |done|by left].
  2: { intros other Hother. apply Hstarted. unfold nodes, Dict.keys in *.
       apply list_elem_of_fmap in Hother as ([n p] & -> & Hin).
       apply (dict_elem_of_keys _ _ _ (Hsub _ Hin)). }
  assert (_is_allowed_worker
            (with_node2pending (rest ++ [(node, remainder)]) self) node
          = true) as -> by done.
  simpl. split_and!; [done| |done..].
  apply dict_get_middle. intros Hin. apply Hnew.
  unfold nodes, Dict.keys in *.
  apply list_elem_of_fmap in Hin as ([n p] & -> & Hin).
  apply (dict_elem_of_keys _ _ _ (Hsub _ Hin)).
Qed.

(** [wA] dies at test 3 of ten with [7; 9] left; [wB], of the same spec,
    replaces it. *)
Lemma replacement_runs_the_remainder_witness :
  (run (replace_worker wA wB tests10)
     (mkEachScheduling 1 [(wA, tests10)] [(wA, [3; 7; 9])] [wA] [] true
        [])).2
  = [send_runtest_some wB [7; 9]].
Proof.
  destruct (replacement_runs_the_remainder
              (mkEachScheduling 1 [(wA, tests10)] [(wA, [3; 7; 9])] [wA] []
                 true [])
              wA wB 3 [7; 9] tests10 "t3"%string) as (_ & Hcalls & _).
  - reflexivity.
  - reflexivity.
  - intros other Hother. exact Hother.
  - reflexivity.
  - discriminate.
  - reflexivity.
  - reflexivity.
  - by_evaluation.
  - by_evaluation.
  - reflexivity.
  - reflexivity.
  - exact Hcalls.
Defined.

(** X20.  The same recovery when the allow-list excludes the new worker:
    the hand-off does not look at the allow-list, so [node] still takes
    over [remainder], but [schedule] only shuts it down; its pending list
    stays [remainder], and with two or more indices in it
    [tests_finished] is false. *)
Theorem excluded_replacement_is_shut_down
    self dead node head remainder collection crashitem :
  collection_is_completed self = true →
  _removed2pending self = [] →
  (∀ other, other ∈ nodes self → other ∈ _started self) →
  Dict.get dead (node2pending self) = Some (head :: remainder) →
  remainder ≠ [] →
  Dict.get dead (node2collection self) = Some collection →
  getitem collection head = Some crashitem →
  node ∉ nodes self →
  node ∉ _started self →
  _is_allowed_worker self node = false →
  gateway_spec (gateway dead) = gateway_spec (gateway node) →
  (run (replace_worker dead node collection) self).2 = [shutdown node] ∧
  (node, remainder)
  ∈ node2pending (run (replace_worker dead node collection) self).1 ∧
  ((2 ≤ length remainder)%nat →
   tests_finished (run (replace_worker dead node collection) self).1
   = false).
Proof.
  intros Hc Hnone Hstarted Hdead Hrem Hcoll Hitem Hnew Hnotstarted
    Hexcluded Hspec.
  destruct (run_hand_off self dead node head remainder collection crashitem)
    as (rest & Hpop & Hremove & Hrun); [done..|].
  destruct (dict_pop_Some _ _ _ _ Hpop) as (_ & Hsub & _ & _).
  change (replace_worker dead node collection)
    with ([Remove_node dead; Add_node node;
           Add_node_collection node collection] ++ [Schedule]).
  rewrite run_app, Hrun. simpl.
  rewrite (schedule_last _ rest node remainder); [|done..| |done|by right].
  2: { intros other Hother. apply Hstarted. unfold nodes, Dict.keys in *.
       apply list_elem_of_fmap in Hother as ([n p] & -> & Hin).
       apply (dict_elem_of_keys _ _ _ (Hsub _ Hin)). }
  assert (_is_allowed_worker
            (with_node2pending (rest ++ [(node, remainder)]) self) node
          = false) as -> by done.
  simpl. split_and!; [done| |].
  - apply elem_of_app. right. left.
  - intros Hlong. unfold tests_finished, Dict.values. simpl.
    rewrite Hc, Hnone. simpl. rewrite fmap_app, forallb_app.
    destruct remainder as [|index [|index' remainder]]; simpl in Hlong;
      [lia..|].
    simpl. by rewrite andb_false_r.
Qed.

(** Only [gw0] is allowed; [wA] dies at test 3 of ten with [7; 9] left and
    [wB], whose id is [gw1], replaces it. *)
Lemma excluded_replacement_is_shut_down_witness :
  (run (replace_worker wA wB tests10)
     (mkEachScheduling 1 [(wA, tests10)] [(wA, [3; 7; 9])] [wA] [] true
        ["gw0"%string])).2
  = [shutdown wB] ∧
  tests_finished
    (run (replace_worker wA wB tests10)
       (mkEachScheduling 1 [(wA, tests10)] [(wA, [3; 7; 9])] [wA] [] true
          ["gw0"%string])).1
  = false.
Proof.
  destruct (excluded_replacement_is_shut_down
              (mkEachScheduling 1 [(wA, tests10)] [(wA, [3; 7; 9])] [wA] []
                 true ["gw0"%string])
              wA wB 3 [7; 9] tests10 "t3"%string)
    as (Hcalls & _ & Hfinished).
  - reflexivity.
  - reflexivity.
  - intros other Hother. exact Hother.
  - reflexivity.
  - discriminate.
  - reflexivity.
  - reflexivity.
  - by_evaluation.
  - by_evaluation.
  - reflexivity.
  - reflexivity.
  - split; [exact Hcalls|]. apply Hfinished. simpl. lia.
Defined.

(** ** Dispatch and removal where the collections are recorded *)

(** X21.  When [schedule] is called with collection complete, on a
    scheduler where every worker it will treat as fresh has a recorded
    collection, it returns, and every registered worker not yet started
    ends up started and has received: [shutdown] alone when the allow-list
    excludes it; [send_runtest_all] then [shutdown], its pending list now
    the whole range of its collection, when it is allowed and had nothing
    pending; [send_runtest_some] with its pending list, and nothing else,
    when it is allowed and had inherited indices. *)
Theorem schedule_dispatches self :
  collection_is_completed self = true →
  Dict.wf (node2pending self) →
  (∀ node,
     Dict.get node (node2pending self) = Some [] →
     node ∉ _started self →
     _is_allowed_worker self node = true →
     is_Some (Dict.get node (node2collection self))) →
  value (schedule self) = Return tt ∧
  ∀ node pending,
    Dict.get node (node2pending self) = Some pending →
    node ∉ _started self →
    node ∈ _started (after (schedule self)) ∧
    (_is_allowed_worker self node = false →
     sent_to node (emitted (schedule self)) = [shutdown node] ∧
     Dict.get node (node2pending (after (schedule self))) = Some pending) ∧
    (_is_allowed_worker self node = true → pending = [] →
     ∃ collection,
       Dict.get node (node2collection self) = Some collection ∧
       Dict.get node (node2pending (after (schedule self)))
       = Some (range (length collection)) ∧
       sent_to node (emitted (schedule self))
       = [send_runtest_all node; shutdown node]) ∧
    (_is_allowed_worker self node = true → pending ≠ [] →
     Dict.get node (node2pending (after (schedule self))) = Some pending ∧
     sent_to node (emitted (schedule self))
     = [send_runtest_some node pending]).
Proof.
  intros Hc Hwf Hcoll.
  destruct (schedule_loop_dispatch self _ _ Hwf Hcoll) as [Hr Hd].
  unfold schedule. rewrite Hc. simpl. rewrite Hr. split; [done|].
  intros node pending Hg Hnin.
  destruct (Hd node pending Hg Hnin) as (p' & evs & Hb & Hge & Hs & Hin).
  pose proof (schedule_node_cases self (_started self) node pending) as Hcase.
  rewrite Hb in Hcase. split; [done|].
  inversion Hcase as [Hs'|Hs' Ha|coll Hs' Ha Hp Hgc|?|Hs' Ha Hp]; subst;
    [done|..]; (split_and!; [intros Ha'|intros Ha' Hp'|intros Ha' Hp']);
    try congruence; try done.
  exists coll. done.
Qed.

(** Three workers wait for [schedule]: [wA] is not on the allow-list, [wB]
    is fresh, [wC] inherited the indices [1; 2]. *)
Lemma schedule_dispatches_witness :
  sent_to wA
    (emitted
       (schedule
          (mkEachScheduling 2 [(wA, tests3); (wB, tests3)]
             [(wA, []); (wB, []); (wC, [1; 2])] [] [] true
             ["gw1"; "gw2"]%string)))
  = [shutdown wA] ∧
  sent_to wB
    (emitted
       (schedule
          (mkEachScheduling 2 [(wA, tests3); (wB, tests3)]
             [(wA, []); (wB, []); (wC, [1; 2])] [] [] true
             ["gw1"; "gw2"]%string)))
  = [send_runtest_all wB; shutdown wB] ∧
  sent_to wC
    (emitted
       (schedule
          (mkEachScheduling 2 [(wA, tests3); (wB, tests3)]
             [(wA, []); (wB, []); (wC, [1; 2])] [] [] true
             ["gw1"; "gw2"]%string)))
  = [send_runtest_some wC [1; 2]].
Proof.
  destruct (schedule_dispatches
              (mkEachScheduling 2 [(wA, tests3); (wB, tests3)]
                 [(wA, []); (wB, []); (wC, [1; 2])] [] [] true
                 ["gw1"; "gw2"]%string)) as [_ Hd].
  - reflexivity.
  - by_evaluation.
  - intros node Hget _ Hallowed. simpl in Hget.
    repeat case_decide; simplify_eq;
      first [by eexists|by vm_compute in Hallowed].
  - split_and!.
    + destruct (Hd wA [] eq_refl) as (_ & Hex & _); [apply not_elem_of_nil|].
      by destruct (Hex eq_refl).
    + destruct (Hd wB [] eq_refl) as (_ & _ & Hfresh & _);
        [apply not_elem_of_nil|].
      by destruct (Hfresh eq_refl eq_refl) as (collection & _ & _ & ?).
    + destruct (Hd wC [1; 2] eq_refl) as (_ & _ & _ & Hsome);
        [apply not_elem_of_nil|].
      by destruct (Hsome eq_refl).
Defined.

(** X22.  [remove_node] on a registered worker drops its entry of
    [node2pending] and leaves the other entries alone.  With nothing
    pending it returns [None] and stashes nothing.  With [head] first in
    the pending list, and [collection[head]] defined for the worker's
    recorded collection, it returns that item, and it stores the remaining
    indices, in order, under the worker in [_removed2pending] exactly when
    there are any. *)
Theorem remove_node_spec self node pending :
  Dict.wf (node2pending self) →
  Dict.get node (node2pending self) = Some pending →
  (node ∉ nodes (after (remove_node node self))) ∧
  (∀ other, other ≠ node →
     Dict.get other (node2pending (after (remove_node node self)))
     = Dict.get other (node2pending self)) ∧
  emitted (remove_node node self) = [] ∧
  (pending = [] →
     value (remove_node node self) = Return None ∧
     _removed2pending (after (remove_node node self))
     = _removed2pending self) ∧
  (∀ head remainder collection crashitem,
     pending = head :: remainder →
     Dict.get node (node2collection self) = Some collection →
     getitem collection head = Some crashitem →
     value (remove_node node self) = Return (Some crashitem) ∧
     (remainder ≠ [] →
        _removed2pending (after (remove_node node self))
        = Dict.set node remainder (_removed2pending self) ∧
        Dict.get node (_removed2pending (after (remove_node node self)))
        = Some remainder) ∧
     (remainder = [] →
        _removed2pending (after (remove_node node self))
        = _removed2pending self)).
Proof.
  intros Hwf Hg. destruct (dict_pop_get _ _ _ Hg) as [rest Hpop].
  destruct (dict_pop_Some _ _ _ _ Hpop) as (_ & _ & Hother & Hrest).
  destruct (Hrest Hwf) as [_ Hgone].
  unfold remove_node. rewrite Hpop. cbn zeta. split_and!.
  - apply unregistered_get.
    destruct pending as [|head remainder]; [done|]. simpl.
    repeat case_match; done.
  - intros other Hne. rewrite <- (Hother other Hne).
    destruct pending as [|head remainder]; [done|]. simpl.
    repeat case_match; done.
  - destruct pending as [|head remainder]; [done|]. simpl.
    repeat case_match; done.
  - by intros ->.
  - intros head remainder collection crashitem -> Hc Hi. simpl.
    rewrite Hc, Hi. destruct remainder as [|i remainder]; simpl.
    + done.
    + split_and!; [done| |done]. intros _. split; [done|].
      apply dict_get_set_eq.
Qed.

(** [wA] dies with the indices [3; 7; 9] of ten tests outstanding. *)
Lemma remove_node_spec_witness :
  value
    (remove_node wA
       (mkEachScheduling 1
          [(wA, tests10)] [(wA, [3; 7; 9])] [wA] [] true []))
  = Return (Some "t3"%string) ∧
  Dict.get wA
    (_removed2pending
       (after
          (remove_node wA
             (mkEachScheduling 1
                [(wA, tests10)] [(wA, [3; 7; 9])] [wA] [] true []))))
  = Some [7; 9].
Proof.
  destruct (remove_node_spec
              (mkEachScheduling 1
                 [(wA, tests10)] [(wA, [3; 7; 9])] [wA] [] true [])
              wA [3; 7; 9]) as (_ & _ & _ & _ & Hcrash).
  - by_evaluation.
  - reflexivity.
  - destruct (Hcrash 3 [7; 9] _ "t3"%string eq_refl eq_refl eq_refl)
      as (Hvalue & Hstash & _).
    split; [exact Hvalue|]. by destruct Hstash.
Defined.
